(** * sendData.py: framing a message and sending it over a USB bulk endpoint pair

    A shallow embedding of [src/content/posts/2024/08/zig/code/sendData.py]:
    the two helpers [toU32] and [chopMessage], and the send/receive loop at
    the bottom of the script, read as a procedure [transfer] over an
    explicit transport. *)

From Equations Require Import Equations.
From Stdlib Require Import String Ascii Bool Arith ZArith List Lia.
Import ListNotations.

Set Implicit Arguments.

(** ** Python values and exceptions *)

(** A Python [int] is an unbounded integer.  A [bytes] object (and the
    [array('B')] that pyusb's [read] returns) is a sequence of integers in
    [range(256)]; a [str] is a sequence of code points in
    [range(0x110000)]. *)
Definition pyint := Z.
Definition bytes := list Z.
Definition pystr := list Z.

Definition is_byte (v : Z) : bool := ((0 <=? v) && (v <? 256))%Z.
Definition bytes_ok (b : bytes) : Prop := Forall (fun v => is_byte v = true) b.
Definition is_codepoint (c : Z) : bool := ((0 <=? c) && (c <? 0x110000))%Z.
Definition str_ok (s : pystr) : Prop := Forall (fun c => is_codepoint c = true) s.

(** A string literal of the script, one code point per character. *)
Definition lit (s : string) : pystr :=
  map (fun a => Z.of_N (N_of_ascii a)) (list_ascii_of_string s).

(** The exceptions the script can meet: the built-in ones raised by
    [bytes(...)], by indexing a list and by [str.encode()], what an endpoint raises (pyusb
    raises [usb.core.USBError] with an errno), and the script's own
    [Exception(msg)]. *)
Inductive exn : Type :=
| ValueError
| IndexError
| UnicodeEncodeError
| USBError (errno : Z)
| Exception (msg : pystr).

Inductive result (A : Type) : Type :=
| Ok (a : A)
| Raise (e : exn).
Arguments Ok {A} a.
Arguments Raise {A} e.

Definition rbind {A B} (r : result A) (k : A -> result B) : result B :=
  match r with
  | Ok a => k a
  | Raise e => Raise e
  end.

Notation "x <~ r ;; k" := (rbind r (fun x => k))
  (at level 61, r at next level, right associativity).

(** [bytes(iterable_of_ints)]: ValueError unless every item is in range(256). *)
Definition mk_bytes (l : list Z) : result bytes :=
  if forallb is_byte l then Ok l else Raise ValueError.

(** [s.encode()]: UTF-8 with [errors='strict'].  Lone surrogates, which a
    Python [str] may hold, are refused. *)
Definition is_surrogate (c : Z) : bool := ((0xD800 <=? c) && (c <=? 0xDFFF))%Z.

Definition encode_char (c : Z) : result bytes :=
  if (c <? 0x80)%Z then Ok [c]
  else if (c <? 0x800)%Z then
    Ok [Z.lor 0xC0 (Z.shiftr c 6); Z.lor 0x80 (Z.land c 0x3F)]
  else if (c <? 0x10000)%Z then
    if is_surrogate c then Raise UnicodeEncodeError
    else Ok [Z.lor 0xE0 (Z.shiftr c 12);
             Z.lor 0x80 (Z.land (Z.shiftr c 6) 0x3F);
             Z.lor 0x80 (Z.land c 0x3F)]
  else
    Ok [Z.lor 0xF0 (Z.shiftr c 18);
        Z.lor 0x80 (Z.land (Z.shiftr c 12) 0x3F);
        Z.lor 0x80 (Z.land (Z.shiftr c 6) 0x3F);
        Z.lor 0x80 (Z.land c 0x3F)].

Fixpoint encode (s : pystr) : result bytes :=
  match s with
  | [] => Ok []
  | c :: s' =>
      b <~ encode_char c ;;
      bs <~ encode s' ;;
      Ok (b ++ bs)
  end.

(** [data[lo:hi]] for non-negative bounds: the items at positions
    [lo <= k < min hi (len data)]. *)
Definition slice (data : bytes) (lo hi : nat) : bytes :=
  firstn (hi - lo) (skipn lo data).

(** The unsigned number a byte sequence denotes, least significant first. *)
Fixpoint le_value (b : bytes) : Z :=
  match b with
  | [] => 0
  | x :: b' => x + 256 * le_value b'
  end%Z.

(** [ceil(a / b)] on naturals. *)
Definition ceil_div (a b : nat) : nat := (a + (b - 1)) / b.

(** ** The framer *)

(** [def toU32(x)] (lines 6-7). *)
Definition toU32 (x : pyint) : result bytes :=
  mk_bytes [ x mod 256;
             Z.shiftr x 8 mod 256;
             Z.shiftr x 16 mod 256;
             Z.shiftr x 24 mod 256 ]%Z.

(** The [while i < strLen] loop of [chopMessage] (lines 15-18); it returns
    the final value of [result]. *)
Equations? chop_loop (data : bytes) (strLen i : nat) (result : list bytes)
  : list bytes by wf (strLen - i) lt :=
  chop_loop data strLen i result with lt_dec i strLen := {
    | left _ =>
        let end_pos := Nat.min strLen (i + 64) in
        chop_loop data strLen end_pos (result ++ [slice data i end_pos]);
    | right _ => result }.
Proof. lia. Qed.

(** [def chopMessage(str)] (lines 9-19). *)
Definition chopMessage (str : pystr) : result (list bytes) :=
  hdr <~ toU32 (Z.of_nat (length str)) ;;
  enc <~ encode str ;;
  let data := hdr ++ enc in
  let strLen := length data in
  Ok (chop_loop data strLen 0 []).


(** A character that UTF-8 encodes to one byte. *)
Definition single_byte (c : Z) : Prop := exists b, encode_char c = Ok [b].

(** The header [chopMessage] puts in front of the encoded string. *)
Definition header (s : pystr) : bytes :=
  let n := Z.of_nat (length s) in
  [ n mod 256; Z.shiftr n 8 mod 256; Z.shiftr n 16 mod 256;
    Z.shiftr n 24 mod 256 ]%Z.

(** ** The transfer loop *)

(** [chr(x)] for an item of an [array('B')]: the character whose code point
    is the byte (the items are in range(256), where [chr] cannot fail). *)
Definition chr (x : Z) : Z := x.

(** [repr] of a [bytes] object, which is what [print] shows for one. *)
Definition hexdigit (n : Z) : Z := (if n <? 10 then 48 + n else 87 + n)%Z.

Definition repr_byte (quote c : Z) : pystr :=
  (if (c =? quote) || (c =? 92) then [92; c]
   else if c =? 9 then [92; 116]
   else if c =? 10 then [92; 110]
   else if c =? 13 then [92; 114]
   else if (c <? 32) || (127 <=? c) then
     [92; 120; hexdigit (Z.shiftr (Z.land c 240) 4); hexdigit (Z.land c 15)]
   else [c])%Z.

Definition bytes_repr (b : bytes) : pystr :=
  let quote :=
    if existsb (Z.eqb 39) b && negb (existsb (Z.eqb 34) b) then 34%Z else 39%Z in
  [98%Z; quote] ++ flat_map (repr_byte quote) b ++ [quote].

(** What the loop does to the outside world, in order: text written to
    standard output, and calls on the two endpoints with their results.
    An endpoint event carries the value of the loop variable [i] at the
    call. *)
Inductive event : Type :=
| EvPrint (text : pystr)
| EvWrite (i : nat) (block : bytes) (r : result unit)
| EvRead (i : nat) (size : Z) (r : result bytes).

Definition ev_index (ev : event) : option nat :=
  match ev with
  | EvPrint _ => None
  | EvWrite i _ _ => Some i
  | EvRead i _ _ => Some i
  end.

Definition is_write (ev : event) : bool :=
  match ev with EvWrite _ _ _ => true | _ => false end.
Definition is_read (ev : event) : bool :=
  match ev with EvRead _ _ _ => true | _ => false end.
Definition is_io (ev : event) : bool := is_write ev || is_read ev.

Section Transfer.

(** The device behind the endpoints is a state machine the script cannot
    see into.  [outep.write(block)] and [inep.read(size)] either return
    or raise, and move the device on.  The script drops the value
    [write] returns, so the model does too. *)
Variable Dev : Type.
Variable outep_write : bytes -> Dev -> result unit * Dev.
Variable inep_read : Z -> Dev -> result bytes * Dev.

(** A command runs from a device state to a result, the next device
    state and the events it produced. *)
Definition M (A : Type) : Type := Dev -> result A * Dev * list event.

Definition ret {A} (a : A) : M A := fun d => (Ok a, d, []).
Definition raise {A} (e : exn) : M A := fun d => (Raise e, d, []).
Definition bind {A B} (m : M A) (k : A -> M B) : M B :=
  fun d =>
    match m d with
    | (Ok a, d1, evs) =>
        match k a d1 with
        | (r, d2, evs') => (r, d2, evs ++ evs')
        end
    | (Raise e, d1, evs) => (Raise e, d1, evs)
    end.

Definition print (text : pystr) : M unit :=
  fun d => (Ok tt, d, [EvPrint text]).
Definition write (i : nat) (block : bytes) : M unit :=
  fun d => let (r, d1) := outep_write block d in (r, d1, [EvWrite i block r]).
Definition read (i : nat) (size : Z) : M bytes :=
  fun d => let (r, d1) := inep_read size d in (r, d1, [EvRead i size r]).
Definition index (blocks : list bytes) (i : nat) : M bytes :=
  match nth_error blocks i with
  | Some block => ret block
  | None => raise IndexError
  end.

Local Notation "x <- m ; k" := (bind m (fun x => k))
  (at level 61, m at next level, right associativity).
Local Notation "m ;; k" := (bind m (fun _ => k))
  (at level 61, right associativity).

(** Lines 66-78: what the script makes of the response to block [i]. *)
Definition check_response (blocks : list bytes) (i : nat) (response : bytes)
  : M unit :=
  let response_str := map chr response in
  if i + 1 =? length blocks then
    if length response =? 0 then
      raise (Exception
        (lit "Device expected more data that was announced in the hashshake!"))
    else if negb (length response =? 32) then
      raise (Exception (lit "Device reported an error: " ++ response_str))
    else
      print (lit "hash: " ++ response_str ++ [10%Z])
  else
    if negb (length response =? 0) then
      raise (Exception (lit "Device reported an error: " ++ response_str))
    else
      ret tt.

(** Lines 60-78: the body of [for i in range(len(blocks))]. *)
Definition loop_body (blocks : list bytes) (i : nat) : M unit :=
  block <- index blocks i ;
  print (lit "sending: '" ++ bytes_repr block ++ lit "' ...") ;;
  write i block ;;
  print (lit " sent." ++ [10%Z]) ;;
  response <- read i 64 ;
  check_response blocks i response.

Fixpoint for_in (idxs : list nat) (body : nat -> M unit) : M unit :=
  match idxs with
  | [] => ret tt
  | i :: rest => body i ;; for_in rest body
  end.

(** Lines 59-78. *)
Definition transfer (blocks : list bytes) : M unit :=
  for_in (seq 0 (length blocks)) (loop_body blocks).

(** Lines 56-78 for a given [message]. *)
Definition send (message : pystr) : M unit :=
  print (message ++ [10%Z]) ;;
  match chopMessage message with
  | Ok blocks => transfer blocks
  | Raise e => raise e
  end.

End Transfer.

Definition outcome {A Dev} (run : result A * Dev * list event) : result A :=
  fst (fst run).
Definition final_dev {A Dev} (run : result A * Dev * list event) : Dev :=
  snd (fst run).
Definition trace {A Dev} (run : result A * Dev * list event) : list event :=
  snd run.

(** The calls on the endpoints, without the printing. *)
Definition io_events (evs : list event) : list event := filter is_io evs.

(** The names the specification gives to the script's two exceptions. *)
Definition IncompleteHandshake : exn :=
  Exception (lit "Device expected more data that was announced in the hashshake!").
Definition DeviceReportedError (response : bytes) : exn :=
  Exception (lit "Device reported an error: " ++ map chr response).

(** One complete cycle for block [i]: its write, then its read. *)
Definition cycle (i : nat) (block response : bytes) : list event :=
  [EvWrite i block (Ok tt); EvRead i 64 (Ok response)].

(** The endpoint calls of a transfer in which every block but the last is
    acknowledged with an empty response and the last with [digest]. *)
Fixpoint acked_cycles (i : nat) (blocks : list bytes) (digest : bytes)
  : list event :=
  match blocks with
  | [] => []
  | [block] => cycle i block digest
  | block :: rest => cycle i block [] ++ acked_cycles (S i) rest digest
  end.

(** What a device does when it is sent [blocks] one at a time, from index
    [i] on and from state [d], with a read of 64 bytes after each: it
    accepts every write, and it answers the read after block [j] with
    [responses j].  The condition is on the two endpoints alone. *)
Fixpoint device_answers {Dev : Type}
    (outep_write : bytes -> Dev -> result unit * Dev)
    (inep_read : Z -> Dev -> result bytes * Dev)
    (responses : nat -> bytes) (i : nat) (blocks : list bytes) (d : Dev)
  : Prop :=
  match blocks with
  | [] => True
  | block :: rest =>
      fst (outep_write block d) = Ok tt /\
      fst (inep_read 64%Z (snd (outep_write block d))) = Ok (responses i) /\
      device_answers outep_write inep_read responses (S i) rest
        (snd (inep_read 64%Z (snd (outep_write block d))))
  end.

(** Where an exception that ends a transfer of [n] blocks comes from,
    read off the events [evs] of the run: a write or a read that raised it,
    or a response the script turned into it. *)
Definition failure_origin (n : nat) (e : exn) (evs : list event) : Prop :=
  (exists i block, In (EvWrite i block (Raise e)) evs) \/
  (exists i, In (EvRead i 64 (Raise e)) evs) \/
  (exists i response,
     In (EvRead i 64 (Ok response)) evs /\ response <> [] /\
     e = DeviceReportedError response) \/
  (In (EvRead (n - 1) 64 (Ok [])) evs /\ e = IncompleteHandshake).

(** An endpoint call without its data: which endpoint, at which index. *)
Inductive call : Type :=
| CallWrite (i : nat)
| CallRead (i : nat).

Definition calls (evs : list event) : list call :=
  flat_map (fun ev =>
              match ev with
              | EvPrint _ => []
              | EvWrite i _ _ => [CallWrite i]
              | EvRead i _ _ => [CallRead i]
              end) evs.

(** The calls of [n] complete turns from index [k] on. *)
Definition schedule (k n : nat) : list call :=
  flat_map (fun i => [CallWrite i; CallRead i]) (seq k n).

(** The blocks the OUT endpoint accepted, in order. *)
Definition sent_blocks (evs : list event) : list bytes :=
  flat_map (fun ev =>
              match ev with
              | EvWrite _ block (Ok _) => [block]
              | _ => []
              end) evs.

(** The sizes the reads asked for, in order. *)
Definition read_sizes (evs : list event) : list Z :=
  flat_map (fun ev =>
              match ev with
              | EvRead _ size _ => [size]
              | _ => []
              end) evs.

(** *** Scripted devices, to run the loop on *)

(** A device that accepts every write and answers the reads from a script,
    one entry per read; past the end of the script it answers nothing. *)
Definition scripted : Type := list (result bytes).
Definition scripted_write (_ : bytes) (d : scripted) : result unit * scripted :=
  (Ok tt, d).
Definition scripted_read (_ : Z) (d : scripted) : result bytes * scripted :=
  match d with
  | [] => (Ok [], [])
  | r :: d' => (r, d')
  end.

(** A device that refuses the write after [n] accepted ones with
    [USBError errno] and answers every read with the empty response. *)
Definition refusing : Type := nat.
Definition refusing_write (errno : Z) (_ : bytes) (n : refusing)
  : result unit * refusing :=
  match n with
  | O => (Raise (USBError errno), O)
  | S n' => (Ok tt, n')
  end.
Definition refusing_read (_ : Z) (n : refusing) : result bytes * refusing :=
  (Ok [], n).

(** Three one-byte blocks and a 32-byte digest, to run the loop on. *)
Definition demo_blocks : list bytes := [[1]; [2]; [3]]%Z.
Definition demo_digest : bytes := repeat 7%Z 32.

(** The message of the script (lines 52-54). *)
Definition message : pystr :=
  concat (repeat (lit "j(R1wzR*y[^GxWJ5B>L{-HLETRD") 100).

(** Membership of an event in the trace of a run on a concrete device. *)
Ltac in_trace := vm_compute; repeat (try (left; reflexivity); right).
(** * Properties *)

Example chopMessage_Hi :
  chopMessage (lit "Hi") = Ok [[2; 0; 0; 0; 72; 105]%Z].
Proof. reflexivity. Qed.

(** ** The result monad *)

Lemma rbind_Ok_inv A B (r : result A) (k : A -> result B) (b : B) :
  rbind r k = Ok b -> exists a, r = Ok a /\ k a = Ok b.
Proof. destruct r as [a|e]; simpl; [eauto | discriminate]. Qed.

(** ** [toU32] *)

Lemma mod256_is_byte (x : Z) : is_byte (x mod 256) = true.
Proof.
  unfold is_byte. pose proof (Z.mod_pos_bound x 256 ltac:(lia)).
  apply andb_true_iff; split; [apply Z.leb_le | apply Z.ltb_lt]; lia.
Qed.

Lemma toU32_eq (x : Z) :
  toU32 x =
  Ok [ x mod 256; Z.shiftr x 8 mod 256; Z.shiftr x 16 mod 256;
       Z.shiftr x 24 mod 256 ]%Z.
Proof.
  unfold toU32, mk_bytes. cbn [forallb].
  rewrite !mod256_is_byte. reflexivity.
Qed.

Lemma le_value_toU32_bytes (x : Z) :
  le_value [ x mod 256; Z.shiftr x 8 mod 256; Z.shiftr x 16 mod 256;
             Z.shiftr x 24 mod 256 ]%Z = (x mod 2 ^ 32)%Z.
Proof.
  change (2 ^ 32)%Z with 4294967296%Z.
  rewrite !Z.shiftr_div_pow2 by lia.
  cbn [le_value].
  replace (x / 2 ^ 16)%Z with (x / 256 / 256)%Z by (rewrite Z.div_div by lia; reflexivity).
  replace (x / 2 ^ 24)%Z with (x / 256 / 256 / 256)%Z by (rewrite !Z.div_div by lia; reflexivity).
  change (2 ^ 8)%Z with 256%Z.
  set (q1 := (x / 256)%Z). set (q2 := (q1 / 256)%Z). set (q3 := (q2 / 256)%Z).
  pose proof (Z.div_mod x 256 ltac:(lia)) as E0.
  pose proof (Z.div_mod q1 256 ltac:(lia)) as E1.
  pose proof (Z.div_mod q2 256 ltac:(lia)) as E2.
  pose proof (Z.div_mod q3 256 ltac:(lia)) as E3.
  pose proof (Z.mod_pos_bound x 256 ltac:(lia)).
  pose proof (Z.mod_pos_bound q1 256 ltac:(lia)).
  pose proof (Z.mod_pos_bound q2 256 ltac:(lia)).
  pose proof (Z.mod_pos_bound q3 256 ltac:(lia)).
  fold q1 in E0. fold q2 in E1. fold q3 in E2.
  apply Z.mod_unique_pos with (q := (q3 / 256)%Z); lia.
Qed.

Lemma toU32_length (x : Z) (hdr : bytes) : toU32 x = Ok hdr -> length hdr = 4.
Proof. rewrite toU32_eq. intros [= <-]. reflexivity. Qed.

(** ** The chopping loop *)

Lemma chop_loop_step (data : bytes) (n i : nat) (acc : list bytes) :
  i < n ->
  chop_loop data n i acc =
  chop_loop data n (Nat.min n (i + 64)) (acc ++ [slice data i (Nat.min n (i + 64))]).
Proof.
  intros Hlt. rewrite chop_loop_equation_1.
  destruct (lt_dec i n) as [Hy|Hn]; [reflexivity | contradiction].
Qed.

Lemma chop_loop_done (data : bytes) (n i : nat) (acc : list bytes) :
  n <= i -> chop_loop data n i acc = acc.
Proof.
  intros Hle. rewrite chop_loop_equation_1.
  destruct (lt_dec i n) as [Hy|Hn]; [lia | reflexivity].
Qed.

Lemma slice_length (data : bytes) (lo hi : nat) :
  length (slice data lo hi) = Nat.min (hi - lo) (length data - lo).
Proof. unfold slice. now rewrite length_firstn, length_skipn. Qed.

Lemma slice_skipn (data : bytes) (lo hi : nat) :
  lo <= hi ->
  slice data lo hi ++ skipn hi data = skipn lo data.
Proof.
  intros Hle. unfold slice.
  replace hi with ((hi - lo) + lo) at 2 by lia.
  rewrite <- skipn_skipn. apply firstn_skipn.
Qed.

(** The loop appends to [result] and never touches what is already there;
    what it appends is cut from [data[i:]]. *)
Lemma chop_loop_concat (data : bytes) (n i : nat) (acc : list bytes) :
  n = length data -> i <= n ->
  concat (chop_loop data n i acc) = concat acc ++ skipn i data.
Proof.
  funelim (chop_loop data n i acc); intros Hn Hi.
  - rewrite H by (trivial; lia).
    rewrite concat_app. simpl. rewrite app_nil_r, <- app_assoc.
    f_equal. apply slice_skipn. lia.
  - rewrite skipn_all2 by lia. now rewrite app_nil_r.
Qed.

Lemma ceil_div_spec (a k : nat) :
  ceil_div a 64 = k <-> 64 * k < a + 64 /\ a <= 64 * k.
Proof.
  unfold ceil_div. change (64 - 1) with 63.
  pose proof (Nat.div_mod_eq (a + 63) 64) as E.
  pose proof (Nat.mod_upper_bound (a + 63) 64 ltac:(lia)) as B.
  split; [intros <- | intros [H1 H2]]; [lia|].
  symmetry. apply Nat.div_unique with (r := a + 63 - 64 * k); lia.
Qed.

Lemma ceil_div_step (m : nat) :
  0 < m -> ceil_div m 64 = S (ceil_div (m - Nat.min m 64) 64).
Proof.
  intros Hm. apply ceil_div_spec.
  destruct (ceil_div_spec (m - Nat.min m 64) (ceil_div (m - Nat.min m 64) 64))
    as [[H1 H2] _]; [reflexivity | lia].
Qed.

Lemma chop_loop_length (data : bytes) (n i : nat) (acc : list bytes) :
  length (chop_loop data n i acc) = length acc + ceil_div (n - i) 64.
Proof.
  funelim (chop_loop data n i acc).
  - rewrite H, length_app. cbn [length].
    rewrite (ceil_div_step (m := strLen - i)) by lia.
    replace (strLen - Nat.min strLen (i + 64))
      with (strLen - i - Nat.min (strLen - i) 64) by lia.
    lia.
  - replace (strLen - i) with 0 by lia. change (ceil_div 0 64) with 0. lia.
Qed.

Lemma chop_loop_sizes (data : bytes) (n i : nat) (acc : list bytes) :
  n = length data ->
  Forall (fun b => 1 <= length b <= 64) acc ->
  Forall (fun b => 1 <= length b <= 64) (chop_loop data n i acc).
Proof.
  funelim (chop_loop data n i acc); intros Hn Hacc; [|exact Hacc].
  apply H; [exact Hn|].
  apply Forall_app; split; [exact Hacc|].
  constructor; [|constructor].
  rewrite slice_length. lia.
Qed.

(** ** [str.encode()] *)

Lemma encode_char_cases (c : Z) :
  (encode_char c = Raise UnicodeEncodeError /\ is_surrogate c = true) \/
  (exists b, encode_char c = Ok b /\ is_surrogate c = false /\
             1 <= length b <= 4 /\ (length b = 1 <-> (c < 0x80)%Z)).
Proof.
  unfold encode_char, is_surrogate.
  destruct (Z.ltb_spec c 0x80); [right | destruct (Z.ltb_spec c 0x800); [right |
    destruct (Z.ltb_spec c 0x10000); [|right]]].
  - eexists; repeat split; simpl; try lia.
    all: apply andb_false_iff; left; apply Z.leb_gt; lia.
  - eexists; repeat split; simpl; try lia.
    all: apply andb_false_iff; left; apply Z.leb_gt; lia.
  - destruct (Z.leb_spec 0xD800 c); destruct (Z.leb_spec c 0xDFFF); simpl;
      [left; split; reflexivity | right; eexists; repeat split; simpl; lia ..].
  - eexists; repeat split; simpl; try lia.
    all: apply andb_false_iff; right; apply Z.leb_gt; lia.
Qed.

Lemma single_byte_iff (c : Z) : single_byte c <-> (c < 0x80)%Z.
Proof.
  unfold single_byte.
  destruct (encode_char_cases c) as [[E _] | (b & E & _ & _ & Hone)].
  - split; [intros [b Hb]; congruence|].
    intros Hc. unfold encode_char in E.
    destruct (Z.ltb_spec c 0x80); [discriminate | lia].
  - rewrite E. split.
    + intros [b' [= ->]]. now apply Hone.
    + intros Hc. apply Hone in Hc.
      destruct b as [|b0 [|]]; try discriminate. now exists b0.
Qed.

(** Encoding fails exactly on the strings that hold a surrogate. *)
Lemma encode_Ok_iff (s : pystr) :
  (exists enc, encode s = Ok enc) <-> Forall (fun c => is_surrogate c = false) s.
Proof.
  induction s as [|c s IH]; simpl.
  - split; [constructor | eauto].
  - destruct (encode_char_cases c) as [[E Hs] | (b & E & Hs & _)]; rewrite E; simpl.
    + split; [intros [enc [=]] | intros H; inversion H; congruence].
    + split.
      * intros [enc Henc]. constructor; [exact Hs|]. apply IH.
        destruct (encode s); [eauto | discriminate].
      * intros H. inversion H as [|? ? _ Hrest]; subst.
        apply IH in Hrest as [enc ->]. simpl. eauto.
Qed.

Lemma encode_length (s : pystr) (enc : bytes) :
  encode s = Ok enc ->
  length s <= length enc /\
  (length enc = length s <-> Forall single_byte s).
Proof.
  revert enc. induction s as [|c s IH]; simpl; intros enc.
  - intros [= <-]. split; [lia|]. split; [constructor | reflexivity].
  - intros H. apply rbind_Ok_inv in H as (b & Eb & H).
    apply rbind_Ok_inv in H as (bs & Ebs & [= <-]).
    destruct (IH bs Ebs) as [Hle Hiff].
    destruct (encode_char_cases c) as [[E _] | (b' & E & _ & Hlen & Hone)];
      [congruence|].
    assert (b' = b) by congruence; subst b'.
    rewrite length_app. split; [lia|]. split.
    + intros Heq. assert (length b = 1) by lia.
      constructor; [apply single_byte_iff, Hone; assumption | apply Hiff; lia].
    + intros HF. inversion HF as [|? ? Hc Hs]; subst.
      apply single_byte_iff, Hone in Hc. apply Hiff in Hs. simpl. lia.
Qed.

(** A string of ASCII characters encodes to itself. *)
Lemma encode_ascii (s : pystr) :
  Forall (fun c => (c < 0x80)%Z) s -> encode s = Ok s.
Proof.
  induction 1 as [|c s Hc _ IH]; simpl; [reflexivity|].
  unfold encode_char. destruct (Z.ltb_spec c 0x80); [|lia].
  simpl. now rewrite IH.
Qed.

(** The encoder on the four lengths of UTF-8: U+0041, U+00E9, U+20AC and
    U+1F600. *)
Example encode_lengths :
  encode [0x41; 0xE9; 0x20AC; 0x1F600]%Z =
  Ok [0x41; 0xC3; 0xA9; 0xE2; 0x82; 0xAC; 0xF0; 0x9F; 0x98; 0x80]%Z.
Proof. reflexivity. Qed.

Lemma lor_is_byte (a b : Z) :
  (0 <= a)%Z -> (0 <= b)%Z -> (a + b < 256)%Z -> is_byte (Z.lor a b) = true.
Proof.
  intros Ha Hb Hab. unfold is_byte.
  pose proof (Z.add_lor_land a b) as E.
  assert (0 <= Z.land a b)%Z by (apply Z.land_nonneg; now left).
  assert (0 <= Z.lor a b)%Z by (apply Z.lor_nonneg; now split).
  apply andb_true_iff; split; [apply Z.leb_le | apply Z.ltb_lt]; lia.
Qed.

Lemma land_63_bound (a : Z) : (0 <= Z.land a 0x3F < 64)%Z.
Proof.
  change 0x3F%Z with (Z.ones 6). rewrite Z.land_ones by lia.
  apply Z.mod_pos_bound. reflexivity.
Qed.

#[local] Opaque Z.lor Z.land Z.shiftr.

(** On code points, the encoder produces bytes. *)
Lemma encode_char_bytes (c : Z) (b : bytes) :
  is_codepoint c = true -> encode_char c = Ok b -> bytes_ok b.
Proof.
  unfold is_codepoint, encode_char. intros Hc.
  apply andb_true_iff in Hc as [H0 H1].
  apply Z.leb_le in H0. apply Z.ltb_lt in H1.
  assert (Hs : forall k, (0 <= k)%Z -> (0 <= Z.shiftr c k)%Z)
    by (intros k Hk; apply Z.shiftr_nonneg; exact H0).
  assert (Hd : forall k m, (0 < k)%Z -> (c < m * 2 ^ k)%Z -> (Z.shiftr c k < m)%Z).
  { intros k m Hk Hm. rewrite Z.shiftr_div_pow2 by lia.
    apply Z.div_lt_upper_bound; [apply Z.pow_pos_nonneg; lia | lia]. }
  pose proof (land_63_bound c). pose proof (land_63_bound (Z.shiftr c 6)).
  pose proof (land_63_bound (Z.shiftr c 12)).
  destruct (Z.ltb_spec c 0x80); [|destruct (Z.ltb_spec c 0x800);
    [|destruct (Z.ltb_spec c 0x10000); [destruct (is_surrogate c)|]]];
    try discriminate; intros Hb; inversion_clear Hb;
    repeat (apply Forall_cons || apply Forall_nil).
  - unfold is_byte. apply andb_true_iff; split;
      [apply Z.leb_le | apply Z.ltb_lt]; lia.
  - pose proof (Hd 6%Z 32%Z). apply lor_is_byte; try lia. apply Hs; lia.
  - apply lor_is_byte; lia.
  - pose proof (Hd 12%Z 16%Z). apply lor_is_byte; try lia. apply Hs; lia.
  - apply lor_is_byte; lia.
  - apply lor_is_byte; lia.
  - pose proof (Hd 18%Z 5%Z). apply lor_is_byte; try lia. apply Hs; lia.
  - apply lor_is_byte; lia.
  - apply lor_is_byte; lia.
  - apply lor_is_byte; lia.
Qed.

#[local] Transparent Z.lor Z.land Z.shiftr.

Lemma encode_bytes (s : pystr) (enc : bytes) :
  str_ok s -> encode s = Ok enc -> bytes_ok enc.
Proof.
  intros Hs. revert enc. induction Hs as [|c s Hc _ IH]; simpl; intros enc.
  - intros [= <-]. constructor.
  - intros H. apply rbind_Ok_inv in H as (b & Eb & H).
    apply rbind_Ok_inv in H as (bs & Ebs & [= <-]).
    apply Forall_app; split; [eapply encode_char_bytes; eassumption | now apply IH].
Qed.

(** ** [chopMessage] *)

Lemma chopMessage_encoded (s : pystr) (enc : bytes) :
  encode s = Ok enc ->
  chopMessage s = Ok (chop_loop (header s ++ enc) (4 + length enc) 0 []).
Proof.
  intros E. unfold chopMessage. rewrite toU32_eq, E. reflexivity.
Qed.

Lemma chopMessage_raises (s : pystr) (e : exn) :
  encode s = Raise e -> chopMessage s = Raise e.
Proof.
  intros E. unfold chopMessage. rewrite toU32_eq, E. reflexivity.
Qed.

(** What the loop guarantees about the blocks, whatever the string:
    they are cut from header-then-encoding, in order, without gaps, each
    of 1 to 64 bytes, [ceil(len(data) / 64)] of them. *)
Lemma chopMessage_blocks (s : pystr) (enc : bytes) :
  encode s = Ok enc ->
  exists blocks,
    chopMessage s = Ok blocks /\
    concat blocks = header s ++ enc /\
    length blocks = ceil_div (4 + length enc) 64 /\
    Forall (fun b => 1 <= length b <= 64) blocks.
Proof.
  intros E. rewrite (chopMessage_encoded _ E).
  eexists; split; [reflexivity|].
  assert (Hn : 4 + length enc = length (header s ++ enc))
    by now rewrite length_app.
  split; [|split].
  - rewrite chop_loop_concat by (exact Hn || lia). reflexivity.
  - rewrite chop_loop_length, Nat.sub_0_r. reflexivity.
  - apply chop_loop_sizes; [exact Hn | constructor].
Qed.

(** For an ASCII string the character count is the byte count, and the
    blocks frame the payload as the protocol wants it: the little-endian
    length of the payload, then the payload. *)
Lemma chopMessage_ascii_frame (s : pystr) :
  Forall (fun c => (c < 0x80)%Z) s ->
  exists hdr blocks,
    toU32 (Z.of_nat (length s)) = Ok hdr /\
    chopMessage s = Ok blocks /\
    concat blocks = hdr ++ s /\
    length blocks = ceil_div (4 + length s) 64 /\
    Forall (fun b => length b <= 64) blocks.
Proof.
  intros Hs. pose proof (encode_ascii Hs) as E.
  destruct (chopMessage_blocks _ E) as (blocks & Hb & Hc & Hl & Hf).
  exists (header s), blocks. rewrite toU32_eq.
  repeat split; try assumption.
  eapply Forall_impl; [|exact Hf]. simpl. lia.
Qed.

(** C1, at strings with a character outside ASCII.  The claim wants the
    blocks to concatenate to the little-endian length [L] of the payload
    followed by the payload.  For the one-character string U+00E9 the
    payload is the two bytes C3 A9, so [L = 2], but the header the code
    sends is that of [len(str) = 1].  Reading [L] as the number of
    characters does not save the claim: sixty times U+00E9 has [L = 60] and
    the claim wants [ceil(64 / 64) = 1] block, where the code makes two. *)
Theorem chopMessage_header_counts_characters :
  encode [0xE9%Z] = Ok [0xC3; 0xA9]%Z /\
  chopMessage [0xE9%Z] = Ok [[1; 0; 0; 0; 0xC3; 0xA9]%Z] /\
  toU32 (Z.of_nat (length [0xC3; 0xA9]%Z)) = Ok [2; 0; 0; 0]%Z /\
  (forall blocks hdr,
     chopMessage [0xE9%Z] = Ok blocks ->
     toU32 (Z.of_nat (length [0xC3; 0xA9]%Z)) = Ok hdr ->
     concat blocks <> hdr ++ [0xC3; 0xA9]%Z) /\
  (forall blocks,
     chopMessage (repeat 0xE9%Z 60) = Ok blocks ->
     length blocks = 2 /\ ceil_div (4 + 60) 64 = 1).
Proof.
  repeat split; try reflexivity.
  - intros blocks hdr Hb Hh.
    vm_compute in Hb, Hh. injection Hb as <-. injection Hh as <-.
    vm_compute. discriminate.
  - vm_compute in H. injection H as <-. reflexivity.
Qed.

(** C7: the boundary lengths of the payload [str.encode()].  With no
    payload there is one block, the 4-byte header alone; with 60 bytes one
    block of 64 bytes; with 61 bytes two blocks, of 64 bytes and of 1. *)
Theorem chopMessage_boundaries (s : pystr) (payload : bytes) :
  encode s = Ok payload ->
  (length payload = 0 ->
     exists hdr, toU32 (Z.of_nat (length s)) = Ok hdr /\
                 chopMessage s = Ok [hdr] /\ length hdr = 4) /\
  (length payload = 60 ->
     exists b, chopMessage s = Ok [b] /\ length b = 64) /\
  (length payload = 61 ->
     exists b1 b2, chopMessage s = Ok [b1; b2] /\
                   length b1 = 64 /\ length b2 = 1).
Proof.
  intros E. rewrite (chopMessage_encoded _ E).
  assert (Hd : length (header s ++ payload) = 4 + length payload)
    by now rewrite length_app.
  split; [|split]; intros HL; rewrite HL in *.
  - destruct payload; [|discriminate].
    exists (header s). rewrite toU32_eq. repeat split.
  - rewrite chop_loop_step by lia. rewrite chop_loop_done by lia.
    eexists; split; [reflexivity|]. rewrite slice_length. lia.
  - rewrite chop_loop_step by lia.
    rewrite chop_loop_step by lia. rewrite chop_loop_done by lia.
    do 2 eexists; split; [reflexivity|]. rewrite !slice_length. lia.
Qed.

Lemma chopMessage_boundaries_witness :
  (exists hdr, toU32 0%Z = Ok hdr /\ chopMessage [] = Ok [hdr] /\ length hdr = 4) /\
  (exists b, chopMessage (repeat 97%Z 60) = Ok [b] /\ length b = 64) /\
  (exists b1 b2, chopMessage (repeat 97%Z 61) = Ok [b1; b2] /\
                 length b1 = 64 /\ length b2 = 1).
Proof.
  split; [|split].
  - apply (proj1 (@chopMessage_boundaries [] [] eq_refl)). reflexivity.
  - apply (proj1 (proj2 (@chopMessage_boundaries (repeat 97%Z 60)
                           (repeat 97%Z 60) eq_refl))). reflexivity.
  - apply (proj2 (proj2 (@chopMessage_boundaries (repeat 97%Z 61)
                           (repeat 97%Z 61) eq_refl))). reflexivity.
Defined.

(** C8 as stated fails: [str.encode()] refuses a lone surrogate, which a
    Python [str] may hold, and [chopMessage] lets the exception through. *)
Lemma chopMessage_surrogate_raises :
  chopMessage [0xD800%Z] = Raise UnicodeEncodeError /\
  ~ (forall s : pystr, exists blocks, chopMessage s = Ok blocks).
Proof.
  split; [reflexivity|].
  intros H. destruct (H [0xD800%Z]) as [blocks Hb]. discriminate Hb.
Qed.

(** C8, amended: on every string without surrogate code points, of any
    length, [chopMessage] returns a block sequence (the loop terminates and
    nothing raises); its result is a function of the string alone, so equal
    strings give equal block sequences; and a string with a surrogate is the
    only input it raises on. *)
Theorem chopMessage_total_without_surrogates (s1 s2 : pystr) :
  Forall (fun c => is_surrogate c = false) s1 ->
  s1 = s2 ->
  exists blocks, chopMessage s1 = Ok blocks /\ chopMessage s2 = Ok blocks.
Proof.
  intros Hs <-. apply encode_Ok_iff in Hs as [enc E].
  destruct (chopMessage_blocks _ E) as (blocks & Hb & _). eauto.
Qed.

Lemma chopMessage_total_without_surrogates_witness :
  exists blocks,
    chopMessage (lit "Hello, World!") = Ok blocks /\
    chopMessage (lit "Hello, World!") = Ok blocks.
Proof.
  apply (@chopMessage_total_without_surrogates (lit "Hello, World!") _).
  - repeat constructor.
  - reflexivity.
Defined.

(** C9: [toU32] returns on every integer, never raises, and its result is
    four bytes whose little-endian value is [x mod 2^32]; so two integers
    that differ by a multiple of [2^32] get the same four bytes. *)
Theorem toU32_wraps (x : Z) :
  exists b0 b1 b2 b3,
    toU32 x = Ok [b0; b1; b2; b3] /\
    bytes_ok [b0; b1; b2; b3] /\
    le_value [b0; b1; b2; b3] = (x mod 2 ^ 32)%Z /\
    forall k : Z, toU32 (x + k * 2 ^ 32)%Z = toU32 x.
Proof.
  do 4 eexists. split; [apply toU32_eq|]. split; [|split].
  - repeat constructor; apply mod256_is_byte.
  - apply le_value_toU32_bytes.
  - intros k. rewrite !toU32_eq. rewrite !Z.shiftr_div_pow2 by lia.
    change (2 ^ 32)%Z with 4294967296%Z.
    change (2 ^ 8)%Z with 256%Z. change (2 ^ 16)%Z with 65536%Z.
    change (2 ^ 24)%Z with 16777216%Z.
    replace (x + k * 4294967296)%Z with (x + (k * 16777216) * 256)%Z at 1 by lia.
    replace (x + k * 4294967296)%Z with (x + (k * 65536) * 65536)%Z at 2 by lia.
    replace (x + k * 4294967296)%Z with (x + (k * 256) * 16777216)%Z at 2 by lia.
    replace (x + k * 4294967296)%Z with (x + (k * 16777216) * 256)%Z by lia.
    rewrite !Z.div_add by lia.
    rewrite Z.mod_add by lia.
    replace (x / 256 + k * 16777216)%Z with (x / 256 + (k * 65536) * 256)%Z by lia.
    replace (x / 65536 + k * 65536)%Z with (x / 65536 + (k * 256) * 256)%Z by lia.
    rewrite !Z.mod_add by lia. reflexivity.
Qed.

(** C10: for every string [s], if [s.encode()] raises then so does
    [chopMessage(s)], and otherwise the blocks of [chopMessage(s)]
    concatenate to [toU32(len(s))] followed by [s.encode()]; they hold
    [4 + len(s.encode())] bytes in all, while the header announces the
    number of characters [len(s)] (modulo [2^32]); the announced count is
    the number of payload bytes exactly when every character of [s] encodes
    to one byte. *)
Theorem chopMessage_concat (s : pystr) :
  match encode s with
  | Raise e => chopMessage s = Raise e
  | Ok enc =>
      exists hdr blocks,
        toU32 (Z.of_nat (length s)) = Ok hdr /\
        chopMessage s = Ok blocks /\
        concat blocks = hdr ++ enc /\
        length (concat blocks) = 4 + length enc /\
        le_value hdr = (Z.of_nat (length s) mod 2 ^ 32)%Z /\
        (length enc = length s <-> Forall single_byte s)
  end.
Proof.
  destruct (encode s) as [enc|e] eqn:E; [|now apply chopMessage_raises].
  destruct (chopMessage_blocks _ E) as (blocks & Hb & Hc & _).
  exists (header s), blocks. rewrite toU32_eq.
  repeat split; try assumption.
  - rewrite Hc, length_app. reflexivity.
  - apply le_value_toU32_bytes.
  - apply (encode_length _ E).
  - apply (encode_length _ E).
Qed.

Lemma chopMessage_concat_witness :
  exists hdr blocks,
    toU32 2%Z = Ok hdr /\
    chopMessage [0x48; 0xE9]%Z = Ok blocks /\
    concat blocks = hdr ++ [0x48; 0xC3; 0xA9]%Z /\
    length (concat blocks) = 4 + 3 /\
    le_value hdr = (2 mod 2 ^ 32)%Z /\
    (3 = 2 <-> Forall single_byte [0x48; 0xE9]%Z).
Proof.
  exact (chopMessage_concat [0x48; 0xE9]%Z).
Defined.

(** ** The transfer loop *)

Lemma skipn_nth_error_cons (A : Type) (l : list A) (k : nat) (a : A) :
  nth_error l k = Some a -> skipn k l = a :: skipn (S k) l.
Proof.
  revert k. induction l as [|x l IH]; intros [|k]; simpl; try discriminate.
  - now intros [= ->].
  - intros H. now rewrite (IH _ H).
Qed.

Section TransferFacts.

Variable Dev : Type.
Variable outep_write : bytes -> Dev -> result unit * Dev.
Variable inep_read : Z -> Dev -> result bytes * Dev.
Variable blocks : list bytes.

Let body := loop_body outep_write inep_read blocks.
Let run_from (k n : nat) (d : Dev) := for_in (seq k n) body d.

(** The text of the two progress messages. *)
Let sending (block : bytes) : event :=
  EvPrint (lit "sending: '" ++ bytes_repr block ++ lit "' ...").
Let sent : event := EvPrint (lit " sent." ++ [10%Z]).

(** [check_response] leaves the device alone and at most prints. *)
Lemma check_response_run (i : nat) (response : bytes) (d : Dev) :
  final_dev (check_response blocks i response d) = d /\
  Forall (fun ev => is_io ev = false) (trace (check_response blocks i response d)).
Proof.
  unfold check_response.
  destruct (i + 1 =? length blocks), (length response =? 0),
    (negb (length response =? 32)); simpl; repeat constructor.
Qed.


(** One turn of the loop, case by case on what the endpoints do. *)
Lemma loop_body_run (i : nat) (block : bytes) (d : Dev) :
  nth_error blocks i = Some block ->
  body i d =
  match outep_write block d with
  | (Raise e, d1) => (Raise e, d1, [sending block; EvWrite i block (Raise e)])
  | (Ok _, d1) =>
      match inep_read 64 d1 with
      | (Raise e, d2) =>
          (Raise e, d2,
           [sending block; EvWrite i block (Ok tt); sent; EvRead i 64 (Raise e)])
      | (Ok response, d2) =>
          (outcome (check_response blocks i response d2), d2,
           [sending block; EvWrite i block (Ok tt); sent;
            EvRead i 64 (Ok response)]
             ++ trace (check_response blocks i response d2))
      end
  end.
Proof.
  intros Hnth. unfold body, loop_body, index, bind, print, write, read.
  rewrite Hnth. unfold ret.
  destruct (outep_write block d) as [[[]|e] d1]; [|reflexivity].
  destruct (inep_read 64 d1) as [[response|e] d2]; [|reflexivity].
  pose proof (check_response_run i response d2) as [Hd _].
  destruct (check_response blocks i response d2) as [[r d3] evs].
  unfold final_dev in Hd; simpl in Hd; subst d3. reflexivity.
Qed.

Lemma for_in_cons (i : nat) (rest : list nat) (d : Dev) :
  for_in (i :: rest) body d =
  match body i d with
  | (Ok _, d1, evs) =>
      (outcome (for_in rest body d1), final_dev (for_in rest body d1),
       evs ++ trace (for_in rest body d1))
  | (Raise e, d1, evs) => (Raise e, d1, evs)
  end.
Proof.
  simpl. unfold bind. destruct (body i d) as [[[[]|e] d1] evs]; [|reflexivity].
  now destruct (for_in rest body d1) as [[r d2] evs'].
Qed.

(** Every endpoint call of turn [i] is tagged [i]. *)
Lemma body_event_index (i : nat) (d : Dev) (ev : event) (j : nat) :
  In ev (trace (body i d)) -> ev_index ev = Some j -> j = i.
Proof.
  destruct (nth_error blocks i) as [block|] eqn:Hnth.
  - rewrite (loop_body_run _ d Hnth).
    destruct (outep_write block d) as [[[]|e] d1].
    + destruct (inep_read 64 d1) as [[response|e] d2].
      * pose proof (check_response_run i response d2) as [_ Hpr].
        unfold trace at 1. cbn [snd]. intros Hin Hj.
        apply in_app_or in Hin as [Hin|Hin].
        -- simpl in Hin.
           destruct Hin as [<-|[<-|[<-|[<-|[]]]]]; simpl in Hj; congruence.
        -- rewrite Forall_forall in Hpr. apply Hpr in Hin.
           unfold is_io in Hin. destruct ev; simpl in *; congruence.
      * simpl. intros [<-|[<-|[<-|[<-|[]]]]] Hj; simpl in Hj; congruence.
    + simpl. intros [<-|[<-|[]]] Hj; simpl in Hj; congruence.
  - unfold body, loop_body, index, bind. rewrite Hnth. simpl. tauto.
Qed.

Lemma run_from_ok (n k : nat) (d d1 : Dev) (evs : list event) :
  body k d = (Ok tt, d1, evs) ->
  trace (run_from k (S n) d) = evs ++ trace (run_from (S k) n d1) /\
  outcome (run_from k (S n) d) = outcome (run_from (S k) n d1).
Proof.
  intros Hb. unfold run_from. cbn [seq]. rewrite for_in_cons, Hb. split; reflexivity.
Qed.

Lemma run_from_raise (n k : nat) (d d1 : Dev) (evs : list event) (e : exn) :
  body k d = (Raise e, d1, evs) ->
  trace (run_from k (S n) d) = evs /\
  outcome (run_from k (S n) d) = Raise e.
Proof.
  intros Hb. unfold run_from. cbn [seq]. rewrite for_in_cons, Hb. split; reflexivity.
Qed.

Lemma run_from_0 (k : nat) (d : Dev) : run_from k 0 d = (Ok tt, d, []).
Proof. reflexivity. Qed.

Lemma run_event_index (n k : nat) (d : Dev) (ev : event) (j : nat) :
  In ev (trace (run_from k n d)) -> ev_index ev = Some j -> k <= j < k + n.
Proof.
  revert k d. induction n as [|n IH]; intros k d; [simpl; tauto|].
  destruct (body k d) as [[[[]|e] d1] evs] eqn:Hb.
  - destruct (@run_from_ok n _ _ _ _ Hb) as [-> _]. intros Hin Hj.
    apply in_app_or in Hin as [Hin|Hin].
    + assert (j = k); [|lia].
      eapply body_event_index; [rewrite Hb; exact Hin | exact Hj].
    + apply IH in Hin; [lia | exact Hj].
  - destruct (@run_from_raise n _ _ _ _ _ Hb) as [-> _]. intros Hin Hj.
    assert (j = k); [|lia].
    eapply body_event_index; [rewrite Hb; exact Hin | exact Hj].
Qed.

(** Where an endpoint call tagged [i] comes from: turn [i] of the loop,
    run from some device state, after the turns below [i] and before
    those above; a turn that raises ends the loop, and so does the last
    turn. *)
Lemma event_locality (n k : nat) (d : Dev) (ev : event) (i : nat) :
  k + n = length blocks ->
  In ev (trace (run_from k n d)) -> ev_index ev = Some i ->
  exists d_i pre post,
    trace (run_from k n d) = pre ++ trace (body i d_i) ++ post /\
    k <= i < length blocks /\
    In ev (trace (body i d_i)) /\
    (forall ev' j, In ev' pre -> ev_index ev' = Some j -> j < i) /\
    (forall ev' j, In ev' post -> ev_index ev' = Some j -> i < j) /\
    (forall e, outcome (body i d_i) = Raise e ->
               outcome (run_from k n d) = Raise e /\ post = []) /\
    (i + 1 = length blocks ->
     outcome (run_from k n d) = outcome (body i d_i) /\ post = []).
Proof.
  revert k d. induction n as [|n IH]; intros k d HN; [simpl; tauto|].
  destruct (body k d) as [[r d1] evs] eqn:Hb.
  assert (Hhere : In ev evs -> ev_index ev = Some i ->
                  i = k /\ In ev (trace (body k d))).
  { intros Hin Hi. rewrite Hb. split; [|exact Hin].
    eapply body_event_index; [rewrite Hb; exact Hin | exact Hi]. }
  destruct r as [[]|e].
  - destruct (@run_from_ok n _ _ _ _ Hb) as [-> ->]. intros Hin Hi.
    apply in_app_or in Hin as [Hin|Hin].
    + destruct (Hhere Hin Hi) as [-> Hin'].
      exists d, [], (trace (run_from (S k) n d1)).
      rewrite Hb. cbn [trace outcome fst snd app].
      split; [reflexivity|]. split; [lia|]. split; [exact Hin|].
      split; [simpl; tauto|]. split; [|split].
      * intros ev' j Hin1 Hj.
        apply (@run_event_index _ _ _ _ _ Hin1) in Hj. lia.
      * discriminate.
      * intros Hlast. assert (n = 0) by lia; subst n. split; reflexivity.
    + destruct (IH (S k) d1 ltac:(lia) Hin Hi)
        as (d_i & pre & post & Htr & Hrange & Hin' & Hpre & Hpost & Hraise & Hlast).
      exists d_i, (evs ++ pre), post. rewrite Htr, <- app_assoc.
      split; [reflexivity|]. split; [lia|]. split; [exact Hin'|].
      split; [|split; [exact Hpost|split; assumption]].
      intros ev' j Hin1 Hj. apply in_app_or in Hin1 as [Hin1|Hin1].
      * assert (j = k); [|lia].
        eapply body_event_index; [rewrite Hb; exact Hin1 | exact Hj].
      * eapply Hpre; eassumption.
  - destruct (@run_from_raise n _ _ _ _ _ Hb) as [-> ->]. intros Hin Hi.
    destruct (Hhere Hin Hi) as [-> Hin'].
    exists d, [], []. rewrite Hb.
    cbn [trace outcome fst snd app]. rewrite app_nil_r.
    split; [reflexivity|]. split; [lia|]. split; [exact Hin|].
    split; [simpl; tauto|]. split; [simpl; tauto|]. split.
    + intros e' [= ->]. split; reflexivity.
    + intros _. split; reflexivity.
Qed.

(** *** The five ways [check_response] can go *)

Lemma check_mid_ack (i : nat) (d : Dev) :
  i + 1 <> length blocks ->
  check_response blocks i [] d = (Ok tt, d, []).
Proof.
  intros Hi. unfold check_response.
  destruct (Nat.eqb_spec (i + 1) (length blocks)); [contradiction | reflexivity].
Qed.




Lemma check_last_digest (i : nat) (response : bytes) (d : Dev) :
  i + 1 = length blocks -> length response = 32 ->
  check_response blocks i response d =
  (Ok tt, d, [EvPrint (lit "hash: " ++ map chr response ++ [10%Z])]).
Proof.
  intros Hi H32. unfold check_response.
  destruct (Nat.eqb_spec (i + 1) (length blocks)); [|contradiction].
  rewrite H32. reflexivity.
Qed.

(** *** Reading one turn back from an event it left *)

Lemma body_read_inv (i : nat) (d : Dev) (j : nat) (sz : Z) (response : bytes) :
  In (EvRead j sz (Ok response)) (trace (body i d)) ->
  exists block d1 d2,
    nth_error blocks i = Some block /\ j = i /\ sz = 64%Z /\
    outep_write block d = (Ok tt, d1) /\
    inep_read 64 d1 = (Ok response, d2) /\
    body i d =
    (outcome (check_response blocks i response d2), d2,
     [sending block; EvWrite i block (Ok tt); sent; EvRead i 64 (Ok response)]
       ++ trace (check_response blocks i response d2)).
Proof.
  destruct (nth_error blocks i) as [block|] eqn:Hnth.
  - rewrite (loop_body_run _ d Hnth).
    destruct (outep_write block d) as [[[]|e] d1] eqn:Hw.
    + destruct (inep_read 64 d1) as [[resp|e] d2] eqn:Hr.
      * pose proof (check_response_run i resp d2) as [_ Hpr].
        cbn [trace snd]. intros Hin.
        apply in_app_or in Hin as [Hin|Hin].
        -- simpl in Hin.
           destruct Hin as [Hin|[Hin|[Hin|[Hin|[]]]]]; try discriminate Hin.
           injection Hin as <- <- <-.
           exists block, d1, d2. rewrite Hw, Hr. repeat split; reflexivity.
        -- rewrite Forall_forall in Hpr. apply Hpr in Hin. discriminate Hin.
      * simpl. intros [H|[H|[H|[H|[]]]]]; discriminate H.
    + simpl. intros [H|[H|[]]]; discriminate H.
  - unfold body, loop_body, index, bind. rewrite Hnth. simpl. tauto.
Qed.

Lemma body_write_raise_inv (i : nat) (d : Dev) (j : nat) (b : bytes) (e : exn) :
  In (EvWrite j b (Raise e)) (trace (body i d)) ->
  nth_error blocks i = Some b /\ j = i /\
  exists d1, outep_write b d = (Raise e, d1) /\
             body i d = (Raise e, d1, [sending b; EvWrite i b (Raise e)]).
Proof.
  destruct (nth_error blocks i) as [block|] eqn:Hnth.
  - rewrite (loop_body_run _ d Hnth).
    destruct (outep_write block d) as [[[]|e'] d1] eqn:Hw.
    + destruct (inep_read 64 d1) as [[resp|e'] d2].
      * pose proof (check_response_run i resp d2) as [_ Hpr].
        cbn [trace snd]. intros Hin.
        apply in_app_or in Hin as [Hin|Hin].
        -- simpl in Hin.
           destruct Hin as [Hin|[Hin|[Hin|[Hin|[]]]]]; discriminate Hin.
        -- rewrite Forall_forall in Hpr. apply Hpr in Hin. discriminate Hin.
      * simpl. intros [H|[H|[H|[H|[]]]]]; discriminate H.
    + simpl. intros [H|[H|[]]]; try discriminate H.
      injection H as <- <- <-. rewrite Hw. eauto.
  - unfold body, loop_body, index, bind. rewrite Hnth. simpl. tauto.
Qed.

Lemma transfer_run_from (d : Dev) :
  transfer outep_write inep_read blocks d = run_from 0 (length blocks) d.
Proof. reflexivity. Qed.


(** A run in which every read but the last returns the empty response
    and the last returns 32 bytes: all the turns are taken, one after the
    other, and the last one prints the digest. *)
Lemma acked_run (digest : bytes) (n k : nat) (d : Dev) :
  k + n = length blocks -> 0 < n -> length digest = 32 ->
  (forall i, k <= i -> i + 1 < length blocks ->
             In (EvRead i 64 (Ok [])) (trace (run_from k n d))) ->
  In (EvRead (length blocks - 1) 64 (Ok digest)) (trace (run_from k n d)) ->
  outcome (run_from k n d) = Ok tt /\
  io_events (trace (run_from k n d)) = acked_cycles k (skipn k blocks) digest /\
  exists pre,
    trace (run_from k n d) =
    pre ++ [EvPrint (lit "hash: " ++ map chr digest ++ [10%Z])].
Proof.
  revert k d. induction n as [|n IH]; intros k d HN Hn H32 Hacks Hlast; [lia|].
  set (x := if n =? 0 then digest else []).
  assert (Hx : In (EvRead k 64 (Ok x)) (trace (run_from k (S n) d))).
  { unfold x. destruct (Nat.eqb_spec n 0) as [->|Hn0].
    - replace k with (length blocks - 1) at 1 by lia. exact Hlast.
    - apply Hacks; lia. }
  assert (Hk : In (EvRead k 64 (Ok x)) (trace (body k d))).
  { destruct (body k d) as [[[[]|e] d1] evs] eqn:Hb.
    - destruct (@run_from_ok n _ _ _ _ Hb) as [Htr _]. rewrite Htr in Hx.
      apply in_app_or in Hx as [Hx|Hx]; [exact Hx|].
      apply run_event_index with (j := k) in Hx; [lia | reflexivity].
    - destruct (@run_from_raise n _ _ _ _ _ Hb) as [Htr _].
      now rewrite Htr in Hx. }
  apply body_read_inv in Hk.
  destruct Hk as (block & d1 & d2 & Hnth & _ & _ & Hw & Hr & Hb).
  rewrite (skipn_nth_error_cons _ _ Hnth).
  unfold x in *. clear x Hx. destruct (Nat.eqb_spec n 0) as [->|Hn0].
  - rewrite check_last_digest in Hb by lia. cbn [outcome trace fst snd] in Hb.
    destruct (@run_from_ok 0 _ _ _ _ Hb) as [-> ->].
    rewrite run_from_0. cbn [outcome trace fst snd]. rewrite app_nil_r.
    rewrite skipn_all2 by lia.
    split; [reflexivity|]. split; [reflexivity|].
    now exists [sending block; EvWrite k block (Ok tt); sent;
                EvRead k 64 (Ok digest)].
  - rewrite check_mid_ack in Hb by lia. cbn [outcome trace fst snd] in Hb.
    rewrite app_nil_r in Hb.
    destruct (@run_from_ok n _ _ _ _ Hb) as [Htr Hout].
    assert (Hrest : forall i r, k < i ->
              In (EvRead i 64 r) (trace (run_from k (S n) d)) ->
              In (EvRead i 64 r) (trace (run_from (S k) n d2))).
    { intros i r Hi Hin. rewrite Htr in Hin.
      apply in_app_or in Hin as [Hin|Hin]; [|exact Hin].
      simpl in Hin. destruct Hin as [H|[H|[H|[H|[]]]]]; try discriminate H.
      injection H as -> _. lia. }
    destruct (IH (S k) d2) as (Ho & Hio & pre & Hpre); try lia; try assumption.
    + intros i Hi HiN. apply Hrest; [lia|]. apply Hacks; lia.
    + apply Hrest; [lia | exact Hlast].
    + rewrite Hout, Htr. split; [exact Ho|]. split.
      * unfold io_events in *. rewrite filter_app, Hio.
        destruct (skipn (S k) blocks) as [|b' tl] eqn:Hsk.
        -- apply (f_equal (@length _)) in Hsk.
           rewrite length_skipn in Hsk. simpl in Hsk. lia.
        -- reflexivity.
      * exists ([sending block; EvWrite k block (Ok tt); sent;
                 EvRead k 64 (Ok [])] ++ pre).
        rewrite Hpre, app_assoc. reflexivity.
Qed.

Lemma failure_origin_incl (n : nat) (e : exn) (evs evs' : list event) :
  incl evs evs' -> failure_origin n e evs -> failure_origin n e evs'.
Proof.
  intros Hincl [(i & b & H)|[(i & H)|[(i & r & H & Hr)|[H He]]]].
  - left. exists i, b. now apply Hincl.
  - right; left. exists i. now apply Hincl.
  - right; right; left. exists i, r. split; [now apply Hincl | exact Hr].
  - right; right; right. split; [now apply Hincl | exact He].
Qed.

Lemma check_response_raise_inv (i : nat) (response : bytes) (d : Dev) (e : exn) :
  outcome (check_response blocks i response d) = Raise e ->
  (response <> [] /\ e = DeviceReportedError response) \/
  (response = [] /\ i + 1 = length blocks /\ e = IncompleteHandshake).
Proof.
  unfold check_response.
  destruct (Nat.eqb_spec (i + 1) (length blocks)) as [Hi|Hi];
    destruct response as [|x response]; simpl.
  - intros [= <-]. right. repeat split. exact Hi.
  - destruct (negb (length response =? 31)); simpl; [|discriminate].
    intros [= <-]. left. split; [discriminate | reflexivity].
  - discriminate.
  - intros [= <-]. left. split; [discriminate | reflexivity].
Qed.

(** Every exception that ends the loop has one of four origins; the
    [IndexError] of [blocks[i]] is not among them. *)
Lemma run_failure_origin (n k : nat) (d : Dev) (e : exn) :
  k + n = length blocks ->
  outcome (run_from k n d) = Raise e ->
  failure_origin (length blocks) e (trace (run_from k n d)).
Proof.
  revert k d. induction n as [|n IH]; intros k d HN; [discriminate|].
  destruct (nth_error blocks k) as [block|] eqn:Hnth;
    [|apply nth_error_None in Hnth; lia].
  pose proof (loop_body_run k d Hnth) as Hb.
  destruct (outep_write block d) as [[[]|e1] d1].
  - destruct (inep_read 64 d1) as [[response|e1] d2].
    + destruct (check_response blocks k response d2) as [[rc dc] evc] eqn:Hc.
      cbn [outcome trace fst snd] in Hb. destruct rc as [[]|ec].
      * destruct (@run_from_ok n _ _ _ _ Hb) as [-> ->]. intros Ho.
        apply failure_origin_incl with (evs := trace (run_from (S k) n d2));
          [apply incl_appr, incl_refl | apply IH; [lia | exact Ho]].
      * destruct (@run_from_raise n _ _ _ _ _ Hb) as [-> ->]. intros [= ->].
        assert (Hin : In (EvRead k 64 (Ok response))
                        ([sending block; EvWrite k block (Ok tt); sent;
                          EvRead k 64 (Ok response)] ++ evc))
          by (simpl; tauto).
        destruct (@check_response_raise_inv k response d2 e) as [[Hr ->]|(-> & Hk & ->)].
        -- now rewrite Hc.
        -- right; right; left. exists k, response. repeat split; assumption.
        -- right; right; right. split; [|reflexivity].
           replace (length blocks - 1) with k by lia. exact Hin.
    + destruct (@run_from_raise n _ _ _ _ _ Hb) as [-> ->]. intros [= ->].
      right; left. exists k. simpl; tauto.
  - destruct (@run_from_raise n _ _ _ _ _ Hb) as [-> ->]. intros [= ->].
    left. exists k, block. simpl; tauto.
Qed.

(** What a refused write says about the whole run. *)
Lemma transfer_write_raise_event (d : Dev) (i : nat) (b : bytes) (e : exn) :
  In (EvWrite i b (Raise e)) (trace (transfer outep_write inep_read blocks d)) ->
  outcome (transfer outep_write inep_read blocks d) = Raise e /\
  nth_error blocks i = Some b /\
  (forall ev j, In ev (trace (transfer outep_write inep_read blocks d)) ->
                ev_index ev = Some j -> j <= i) /\
  (forall j sz r,
     In (EvRead j sz r) (trace (transfer outep_write inep_read blocks d)) -> j < i).
Proof.
  rewrite transfer_run_from. intros Hin.
  destruct (@event_locality (length blocks) 0 d _ i eq_refl Hin eq_refl)
    as (d_i & pre & post & Htr & Hrange & Hin' & Hpre & Hpost & Hraise & Hlast).
  apply body_write_raise_inv in Hin'.
  destruct Hin' as (Hnth & _ & d1 & Hw & Hb).
  destruct (Hraise e) as [Ho ->]; [now rewrite Hb|].
  rewrite Htr, Hb. cbn [trace snd]. rewrite app_nil_r.
  split; [exact Ho|]. split; [exact Hnth|]. split.
  - intros ev j Hev Hj. apply in_app_or in Hev as [Hev|Hev].
    + apply (Hpre _ _ Hev) in Hj. lia.
    + simpl in Hev. destruct Hev as [<-|[<-|[]]]; simpl in Hj; [discriminate|].
      injection Hj as <-. lia.
  - intros j sz r Hev. apply in_app_or in Hev as [Hev|Hev].
    + apply (Hpre _ _ Hev). reflexivity.
    + simpl in Hev. destruct Hev as [H|[H|[]]]; discriminate H.
Qed.

End TransferFacts.

Lemma filter_io_write (evs : list event) :
  filter is_write (io_events evs) = filter is_write evs.
Proof.
  unfold io_events. induction evs as [|[t|i b r|i z r] evs IH]; simpl; congruence.
Qed.

Lemma filter_io_read (evs : list event) :
  filter is_read (io_events evs) = filter is_read evs.
Proof.
  unfold io_events. induction evs as [|[t|i b r|i z r] evs IH]; simpl; congruence.
Qed.

Lemma acked_cycles_counts (blocks : list bytes) (k : nat) (digest : bytes) :
  length (filter is_write (acked_cycles k blocks digest)) = length blocks /\
  length (filter is_read (acked_cycles k blocks digest)) = length blocks.
Proof.
  revert k. induction blocks as [|b [|b' tl] IH]; intros k.
  - split; reflexivity.
  - split; reflexivity.
  - destruct (IH (S k)) as [Hw Hr].
    change (acked_cycles k (b :: b' :: tl) digest)
      with (cycle k b [] ++ acked_cycles (S k) (b' :: tl) digest).
    rewrite !filter_app, !length_app, Hw, Hr. split; reflexivity.
Qed.

(** ** The claims about the transfer *)

Section TransferClaims.

Variable Dev : Type.
Variable outep_write : bytes -> Dev -> result unit * Dev.
Variable inep_read : Z -> Dev -> result bytes * Dev.

(** A device that answers as [responses] says, with nothing after every
    block but the last, is read after every block: the loop gets to each
    index and receives that answer there. *)
Lemma answered_reads
    (blocks : list bytes) (responses : nat -> bytes) (n k : nat) (d : Dev) :
  k + n = length blocks ->
  (forall i, i + 1 < length blocks -> responses i = []) ->
  device_answers outep_write inep_read responses k (skipn k blocks) d ->
  forall i, k <= i -> i < length blocks ->
    In (EvRead i 64 (Ok (responses i)))
       (trace (for_in (seq k n) (loop_body outep_write inep_read blocks) d)).
Proof.
  revert k d. induction n as [|n IH]; intros k d HN Hacks Hdev i Hki HiN; [lia|].
  destruct (nth_error blocks k) as [block|] eqn:Hnth;
    [|apply nth_error_None in Hnth; lia].
  rewrite (skipn_nth_error_cons _ _ Hnth) in Hdev.
  cbn [device_answers] in Hdev. destruct Hdev as (Hw & Hr & Hrest).
  pose proof (@loop_body_run Dev outep_write inep_read blocks k block d Hnth)
    as Hb.
  destruct (outep_write block d) as [[[]|e1] d1]; cbn [fst snd] in Hw, Hr, Hrest;
    [|discriminate Hw].
  destruct (inep_read 64 d1) as [[r|e1] d2]; cbn [fst snd] in Hr, Hrest;
    [|discriminate Hr].
  injection Hr as ->.
  assert (Hhere : In (EvRead k 64 (Ok (responses k)))
            ([EvPrint (lit "sending: '" ++ bytes_repr block ++ lit "' ...");
              EvWrite k block (Ok tt); EvPrint (lit " sent." ++ [10%Z]);
              EvRead k 64 (Ok (responses k))]
               ++ trace (check_response blocks k (responses k) d2)))
    by (apply in_or_app; left; simpl; tauto).
  destruct (Nat.eq_dec (k + 1) (length blocks)) as [Hlast|Hmid].
  - assert (i = k) by lia; subst i.
    destruct (outcome (check_response blocks k (responses k) d2))
      as [[]|e] eqn:Ho.
    + destruct (@run_from_ok Dev outep_write inep_read blocks n _ _ _ _ Hb)
        as [-> _].
      apply in_or_app; left. exact Hhere.
    + destruct (@run_from_raise Dev outep_write inep_read blocks n _ _ _ _ _ Hb)
        as [-> _].
      exact Hhere.
  - rewrite (Hacks k) in Hb, Hhere by lia.
    rewrite check_mid_ack in Hb, Hhere by exact Hmid.
    cbn [outcome trace fst snd] in Hb, Hhere.
    destruct (@run_from_ok Dev outep_write inep_read blocks n _ _ _ _ Hb)
      as [-> _].
    destruct (Nat.eq_dec i k) as [->|Hne].
    + apply in_or_app; left. rewrite (Hacks k) by lia. exact Hhere.
    + apply in_or_app; right. apply IH; try assumption; lia.
Qed.

(** C2: for every non-empty sequence of [N] blocks and every transport
    that accepts each write and answers the read after it with the empty
    response at the indices [0 .. N-2] and with 32 bytes at index [N-1],
    the transfer ends without an exception, the last thing it prints is
    those 32 bytes as the hash, and its endpoint calls are exactly
    write 0, read 0, write 1, read 1, ..., write N-1, read N-1: [N] writes
    and [N] reads, each block written before it is read for, each index
    finished before the next.  The condition is on the device
    ([device_answers]), not on the run. *)
Theorem transfer_acked_returns_digest
    (blocks : list bytes) (d : Dev) (responses : nat -> bytes) :
  blocks <> [] ->
  (forall i, i + 1 < length blocks -> responses i = []) ->
  length (responses (length blocks - 1)) = 32 ->
  device_answers outep_write inep_read responses 0 blocks d ->
  outcome (transfer outep_write inep_read blocks d) = Ok tt /\
  (exists pre,
     trace (transfer outep_write inep_read blocks d) =
     pre ++ [EvPrint (lit "hash: "
                        ++ map chr (responses (length blocks - 1)) ++ [10%Z])]) /\
  io_events (trace (transfer outep_write inep_read blocks d)) =
    acked_cycles 0 blocks (responses (length blocks - 1)) /\
  length (filter is_write (trace (transfer outep_write inep_read blocks d))) =
    length blocks /\
  length (filter is_read (trace (transfer outep_write inep_read blocks d))) =
    length blocks.
Proof.
  intros Hne Hacks H32 Hdev.
  assert (HN : 0 < length blocks) by (destruct blocks; [contradiction | simpl; lia]).
  pose proof (@answered_reads blocks responses (length blocks) 0 d eq_refl
                Hacks Hdev) as Hreads.
  destruct (@acked_run Dev outep_write inep_read blocks
              (responses (length blocks - 1))
              (length blocks) 0 d eq_refl HN H32) as (Ho & Hio & Hpre).
  - intros i _ Hi. rewrite <- (Hacks i Hi). apply Hreads; lia.
  - apply Hreads; lia.
  - split; [exact Ho|]. split; [exact Hpre|]. split; [exact Hio|].
    rewrite <- filter_io_write, <- filter_io_read.
    change (io_events (trace (transfer outep_write inep_read blocks d)))
      with (io_events (trace (for_in (seq 0 (length blocks))
              (loop_body outep_write inep_read blocks) d))).
    rewrite Hio. apply acked_cycles_counts.
Qed.




(** C6, amended: a write the transport refuses at index [i] ends the
    transfer with the very exception the transport raised, with no read
    at index [i] and no call at a later index; and whatever exception
    ends a transfer is one a write or a read raised, or the
    device-reported error made of the response, or the
    incomplete-handshake exception.  None of them records the stage or
    the index. *)
Theorem transfer_propagates_failures_unchanged
    (blocks : list bytes) (d : Dev) :
  (forall i block e,
     In (EvWrite i block (Raise e))
        (trace (transfer outep_write inep_read blocks d)) ->
     outcome (transfer outep_write inep_read blocks d) = Raise e /\
     nth_error blocks i = Some block /\
     (forall ev j,
        In ev (trace (transfer outep_write inep_read blocks d)) ->
        ev_index ev = Some j -> j <= i) /\
     (forall j sz r,
        In (EvRead j sz r) (trace (transfer outep_write inep_read blocks d)) ->
        j < i)) /\
  (forall e,
     outcome (transfer outep_write inep_read blocks d) = Raise e ->
     failure_origin (length blocks) e
       (trace (transfer outep_write inep_read blocks d))).
Proof.
  split.
  - intros i block e Hin. now apply transfer_write_raise_event.
  - intros e Ho.
    apply (@run_failure_origin Dev outep_write inep_read blocks
             (length blocks) 0 d e eq_refl Ho).
Qed.

End TransferClaims.

(** *** The claims on scripted devices *)

Lemma transfer_acked_returns_digest_witness :
  outcome (transfer scripted_write scripted_read demo_blocks
             [Ok []; Ok []; Ok demo_digest]) = Ok tt /\
  (exists pre,
     trace (transfer scripted_write scripted_read demo_blocks
              [Ok []; Ok []; Ok demo_digest]) =
     pre ++ [EvPrint (lit "hash: " ++ map chr demo_digest ++ [10%Z])]) /\
  io_events (trace (transfer scripted_write scripted_read demo_blocks
                      [Ok []; Ok []; Ok demo_digest])) =
    acked_cycles 0 demo_blocks demo_digest /\
  length (filter is_write
            (trace (transfer scripted_write scripted_read demo_blocks
                      [Ok []; Ok []; Ok demo_digest]))) = 3 /\
  length (filter is_read
            (trace (transfer scripted_write scripted_read demo_blocks
                      [Ok []; Ok []; Ok demo_digest]))) = 3.
Proof.
  apply (@transfer_acked_returns_digest scripted scripted_write scripted_read
           demo_blocks [Ok []; Ok []; Ok demo_digest]
           (fun i => if i =? 2 then demo_digest else [])).
  - discriminate.
  - intros i Hi. simpl in Hi.
    destruct i as [|[|i]]; [reflexivity | reflexivity | lia].
  - reflexivity.
  - simpl. repeat split; reflexivity.
Defined.




(** C6 as stated fails: the exception that ends a transfer is the same
    whether the write is refused at index 0 or at index 1, and the same
    again when it is a read that fails; a device-reported error has the
    same message at index 0 and at index 1.  So nothing computed from the
    surfaced failure gives the index. *)
Lemma transfer_failure_names_no_index :
  outcome (transfer (refusing_write 19) refusing_read demo_blocks 0) =
    Raise (USBError 19) /\
  outcome (transfer (refusing_write 19) refusing_read demo_blocks 1) =
    Raise (USBError 19) /\
  In (EvWrite 0 [1%Z] (Raise (USBError 19)))
     (trace (transfer (refusing_write 19) refusing_read demo_blocks 0)) /\
  In (EvWrite 1 [2%Z] (Raise (USBError 19)))
     (trace (transfer (refusing_write 19) refusing_read demo_blocks 1)) /\
  outcome (transfer scripted_write scripted_read demo_blocks
             [Raise (USBError 19)]) = Raise (USBError 19) /\
  outcome (transfer scripted_write scripted_read demo_blocks [Ok [88%Z]]) =
    Raise (Exception (lit "Device reported an error: X")) /\
  outcome (transfer scripted_write scripted_read demo_blocks
             [Ok []; Ok [88%Z]]) =
    Raise (Exception (lit "Device reported an error: X")) /\
  ~ (exists index_of : exn -> nat,
       forall (dev : refusing) (i : nat) (block : bytes) (e e' : exn),
         In (EvWrite i block (Raise e))
            (trace (transfer (refusing_write 19) refusing_read demo_blocks dev)) ->
         outcome (transfer (refusing_write 19) refusing_read demo_blocks dev) =
           Raise e' ->
         index_of e' = i).
Proof.
  assert (H0 : In (EvWrite 0 [1%Z] (Raise (USBError 19)))
     (trace (transfer (refusing_write 19) refusing_read demo_blocks 0)))
    by in_trace.
  assert (H1 : In (EvWrite 1 [2%Z] (Raise (USBError 19)))
     (trace (transfer (refusing_write 19) refusing_read demo_blocks 1)))
    by in_trace.
  repeat split; try assumption.
  intros [index_of H].
  pose proof (H 0 0 _ _ (USBError 19) H0 eq_refl) as E0.
  pose proof (H 1 1 _ _ (USBError 19) H1 eq_refl) as E1.
  congruence.
Qed.

Lemma transfer_propagates_failures_unchanged_witness :
  (outcome (transfer (refusing_write 19) refusing_read demo_blocks 1) =
     Raise (USBError 19) /\
   nth_error demo_blocks 1 = Some [2%Z] /\
   (forall ev j,
      In ev (trace (transfer (refusing_write 19) refusing_read demo_blocks 1)) ->
      ev_index ev = Some j -> j <= 1) /\
   (forall j sz r,
      In (EvRead j sz r)
         (trace (transfer (refusing_write 19) refusing_read demo_blocks 1)) ->
      j < 1)) /\
  failure_origin (length demo_blocks) (USBError 19)
    (trace (transfer (refusing_write 19) refusing_read demo_blocks 1)).
Proof.
  split.
  - apply (proj1 (@transfer_propagates_failures_unchanged refusing
                    (refusing_write 19) refusing_read demo_blocks 1)).
    in_trace.
  - apply (proj2 (@transfer_propagates_failures_unchanged refusing
                    (refusing_write 19) refusing_read demo_blocks 1)).
    reflexivity.
Defined.

(** ** The script's own message *)

Example message_blocks :
  exists blocks,
    chopMessage message = Ok blocks /\
    length blocks = 43 /\
    concat blocks = [140; 10; 0; 0]%Z ++ message.
Proof. eexists. split; [vm_compute; reflexivity | split; reflexivity]. Qed.

(** The whole script on a device that acknowledges 42 blocks and answers
    the 43rd with a digest. *)
Example send_message :
  outcome (send scripted_write scripted_read message
             (repeat (Ok []) 42 ++ [Ok demo_digest])) = Ok tt /\
  length (filter is_write
            (trace (send scripted_write scripted_read message
                      (repeat (Ok []) 42 ++ [Ok demo_digest])))) = 43.
Proof. split; vm_compute; reflexivity. Qed.

(** * Further properties of the framer *)

(** ** [toU32] identifies exactly the integers congruent modulo [2^32] *)

Lemma toU32_add_multiple (x k : Z) : toU32 (x + k * 2 ^ 32)%Z = toU32 x.
Proof.
  rewrite !toU32_eq, !Z.shiftr_div_pow2 by lia.
  change (2 ^ 32)%Z with 4294967296%Z.
  change (2 ^ 8)%Z with 256%Z. change (2 ^ 16)%Z with 65536%Z.
  change (2 ^ 24)%Z with 16777216%Z.
  replace (x + k * 4294967296)%Z with (x + (k * 16777216) * 256)%Z at 1 2 by lia.
  replace (x + k * 4294967296)%Z with (x + (k * 65536) * 65536)%Z at 1 by lia.
  replace (x + k * 4294967296)%Z with (x + (k * 256) * 16777216)%Z by lia.
  rewrite !Z.div_add by lia. rewrite Z.mod_add by lia.
  replace (x / 256 + k * 16777216)%Z with (x / 256 + (k * 65536) * 256)%Z by lia.
  replace (x / 65536 + k * 65536)%Z with (x / 65536 + (k * 256) * 256)%Z by lia.
  rewrite !Z.mod_add by lia. reflexivity.
Qed.

(** Two integers get the same four bytes exactly when they are congruent
    modulo [2^32]: on [0 .. 2^32-1] the header determines the length, and
    beyond it the length is lost. *)
Theorem toU32_eq_iff_congruent (x y : Z) :
  toU32 x = toU32 y <-> (x mod 2 ^ 32 = y mod 2 ^ 32)%Z.
Proof.
  split.
  - rewrite !toU32_eq. intros [= H0 H1 H2 H3].
    rewrite <- !le_value_toU32_bytes. now rewrite H0, H1, H2, H3.
  - intros H.
    rewrite (Z.div_mod x (2 ^ 32)), (Z.div_mod y (2 ^ 32)) by lia.
    rewrite H.
    rewrite (Z.add_comm _ (y mod 2 ^ 32)), (Z.add_comm (2 ^ 32 * (y / _))).
    rewrite (Z.mul_comm _ (x / _)), (Z.mul_comm _ (y / _)).
    now rewrite !toU32_add_multiple.
Qed.

(** ** Where each block of [chopMessage] lies in the data *)

Lemma firstn_min_length (A : Type) (m : nat) (l : list A) :
  firstn (Nat.min m (length l)) l = firstn m l.
Proof.
  destruct (Nat.le_ge_cases m (length l)) as [H|H].
  - now rewrite Nat.min_l.
  - now rewrite Nat.min_r, firstn_all, firstn_all2.
Qed.

(** Cutting at [min(strLen, i + 64)] is cutting at [i + 64]: a slice stops
    at the end of the data by itself. *)
Lemma slice_min (data : bytes) (i : nat) :
  slice data i (Nat.min (length data) (i + 64)) = slice data i (i + 64).
Proof.
  unfold slice.
  rewrite <- (firstn_min_length (i + 64 - i)), length_skipn.
  f_equal. lia.
Qed.

(** The loop only appends to [result]. *)
Lemma chop_loop_app (data : bytes) (n i : nat) (acc : list bytes) :
  chop_loop data n i acc = acc ++ chop_loop data n i [].
Proof.
  remember (n - i) as m eqn:Hm. revert i acc Hm.
  induction m as [m IH] using lt_wf_ind. intros i acc Hm.
  destruct (lt_dec i n) as [Hlt|Hge].
  - rewrite (chop_loop_step data acc Hlt), (chop_loop_step data [] Hlt).
    rewrite (IH (n - Nat.min n (i + 64))) by lia.
    rewrite (IH (n - Nat.min n (i + 64)) ltac:(lia) _ ([] ++ _)) by lia.
    now rewrite <- app_assoc.
  - rewrite !chop_loop_done by lia. now rewrite app_nil_r.
Qed.

(** From position [i] on, the loop produces the slices
    [data[i:i+64]], [data[i+64:i+128]], ... *)
Lemma chop_loop_nth (data : bytes) (k i : nat) :
  i + 64 * k < length data ->
  nth_error (chop_loop data (length data) i []) k =
  Some (slice data (i + 64 * k) (i + 64 * k + 64)).
Proof.
  revert i. induction k as [|k IH]; intros i Hlt.
  - rewrite chop_loop_step by lia. rewrite chop_loop_app. cbn [app nth_error].
    rewrite slice_min. do 2 f_equal; lia.
  - rewrite chop_loop_step by lia. rewrite chop_loop_app. cbn [app nth_error].
    rewrite Nat.min_r by lia. rewrite IH by lia. do 2 f_equal; lia.
Qed.

Lemma chopMessage_nth (s : pystr) (enc : bytes) (blocks : list bytes) (k : nat) :
  encode s = Ok enc -> chopMessage s = Ok blocks ->
  length blocks = ceil_div (4 + length enc) 64 /\
  (k < length blocks ->
   64 * k < 4 + length enc /\
   nth_error blocks k = Some (slice (header s ++ enc) (64 * k) (64 * k + 64))).
Proof.
  intros E Hb. rewrite (chopMessage_encoded _ E) in Hb.
  assert (Hbl : blocks = chop_loop (header s ++ enc) (4 + length enc) 0 [])
    by congruence.
  clear Hb. subst blocks.
  assert (Hn : 4 + length enc = length (header s ++ enc))
    by now rewrite length_app.
  rewrite chop_loop_length, Nat.sub_0_r.
  change (length (@nil bytes)) with 0. rewrite Nat.add_0_l.
  split; [reflexivity|]. intros Hk.
  destruct (ceil_div_spec (4 + length enc) (ceil_div (4 + length enc) 64))
    as [[H1 H2] _]; [reflexivity|].
  split; [lia|]. rewrite Hn.
  rewrite (chop_loop_nth (header s ++ enc) k 0) by lia. reflexivity.
Qed.

(** Block [k] of [chopMessage(s)] is [data[64*k : 64*k + 64]] of the data
    [toU32(len(s)) + s.encode()]: the blocks are consecutive 64-byte
    windows, none skipped, none overlapping. *)
Theorem chopMessage_block_is_window
    (s : pystr) (enc : bytes) (blocks : list bytes) (k : nat) :
  encode s = Ok enc -> chopMessage s = Ok blocks -> k < length blocks ->
  exists hdr,
    toU32 (Z.of_nat (length s)) = Ok hdr /\
    nth_error blocks k = Some (slice (hdr ++ enc) (64 * k) (64 * k + 64)).
Proof.
  intros E Hb Hk. exists (header s). split; [apply toU32_eq|].
  now apply (@chopMessage_nth s enc blocks k E Hb).
Qed.

Lemma chopMessage_block_is_window_witness :
  exists hdr,
    toU32 70%Z = Ok hdr /\
    nth_error [ [70; 0; 0; 0]%Z ++ repeat 97%Z 60; repeat 97%Z 10 ] 1 =
    Some (slice (hdr ++ repeat 97%Z 70) 64 128).
Proof.
  apply (@chopMessage_block_is_window (repeat 97%Z 70) (repeat 97%Z 70)
           [ [70; 0; 0; 0]%Z ++ repeat 97%Z 60; repeat 97%Z 10 ] 1).
  - reflexivity.
  - reflexivity.
  - simpl. lia.
Defined.

(** Every block of [chopMessage(s)] but the last holds exactly 64 bytes;
    the last holds what is left, [(4 + L) mod 64] bytes, or 64 when
    [4 + L] is a multiple of 64, where [L = len(s.encode())]. *)
Theorem chopMessage_block_sizes
    (s : pystr) (enc : bytes) (blocks : list bytes) (k : nat) (b : bytes) :
  encode s = Ok enc -> chopMessage s = Ok blocks ->
  nth_error blocks k = Some b ->
  (k + 1 < length blocks -> length b = 64) /\
  (k + 1 = length blocks ->
   length b = 4 + length enc - 64 * k /\
   length b = if (4 + length enc) mod 64 =? 0 then 64
              else (4 + length enc) mod 64).
Proof.
  intros E Hb Hnth.
  assert (Hk : k < length blocks) by (apply nth_error_Some; congruence).
  destruct (@chopMessage_nth s enc blocks k E Hb) as [Hlen Hwin].
  destruct (Hwin Hk) as [Hlt Hnth'].
  assert (Hb' : b = slice (header s ++ enc) (64 * k) (64 * k + 64)) by congruence.
  subst b. rewrite slice_length, length_app.
  change (length (header s)) with 4.
  destruct (ceil_div_spec (4 + length enc) (length blocks)) as [[H1 H2] _];
    [now symmetry|].
  split; [intros Hmid; lia|]. intros Hlast. split; [lia|].
  pose proof (Nat.div_mod_eq (4 + length enc) 64) as Hdm.
  pose proof (Nat.mod_upper_bound (4 + length enc) 64 ltac:(lia)) as Hub.
  destruct (Nat.eqb_spec ((4 + length enc) mod 64) 0) as [H0|H0]; lia.
Qed.

Lemma chopMessage_block_sizes_witness :
  (0 + 1 < 2 -> length ([70; 0; 0; 0]%Z ++ repeat 97%Z 60) = 64) /\
  (0 + 1 = 2 ->
   length ([70; 0; 0; 0]%Z ++ repeat 97%Z 60) = 4 + 70 - 64 * 0 /\
   length ([70; 0; 0; 0]%Z ++ repeat 97%Z 60) =
     if (4 + 70) mod 64 =? 0 then 64 else (4 + 70) mod 64).
Proof.
  apply (@chopMessage_block_sizes (repeat 97%Z 70) (repeat 97%Z 70)
           [ [70; 0; 0; 0]%Z ++ repeat 97%Z 60; repeat 97%Z 10 ] 0
           ([70; 0; 0; 0]%Z ++ repeat 97%Z 60)); reflexivity.
Defined.

(** [chopMessage] never returns an empty list, and its first block starts
    with the whole 4-byte header: the length is never split across two
    blocks. *)
Theorem chopMessage_first_block_has_header (s : pystr) (enc : bytes) :
  encode s = Ok enc ->
  exists hdr first rest,
    toU32 (Z.of_nat (length s)) = Ok hdr /\
    chopMessage s = Ok (first :: rest) /\
    firstn 4 first = hdr /\
    first = firstn 64 (hdr ++ enc).
Proof.
  intros E.
  destruct (chopMessage_blocks _ E) as (blocks & Hb & _ & Hlen & _).
  destruct (@chopMessage_nth s enc blocks 0 E Hb) as [_ Hwin].
  destruct (ceil_div_spec (4 + length enc) (length blocks)) as [[H1 H2] _];
    [now symmetry|].
  destruct blocks as [|first rest]; [simpl in H2; lia|].
  destruct Hwin as [_ Hnth]; [simpl; lia|].
  cbn [nth_error] in Hnth.
  assert (Hf : first = firstn 64 (header s ++ enc))
    by (injection Hnth as ->; reflexivity).
  exists (header s), first, rest. rewrite toU32_eq.
  repeat split; [exact Hb| |exact Hf].
  rewrite Hf. reflexivity.
Qed.

Lemma chopMessage_first_block_has_header_witness :
  exists hdr first rest,
    toU32 70%Z = Ok hdr /\
    chopMessage (repeat 97%Z 70) = Ok (first :: rest) /\
    firstn 4 first = hdr /\
    first = firstn 64 (hdr ++ repeat 97%Z 70).
Proof.
  exact (@chopMessage_first_block_has_header (repeat 97%Z 70) (repeat 97%Z 70)
           eq_refl).
Defined.

Lemma encode_length_upper (s : pystr) (enc : bytes) :
  encode s = Ok enc -> length enc <= 4 * length s.
Proof.
  revert enc. induction s as [|c s IH]; simpl; intros enc.
  - intros [= <-]. simpl. lia.
  - intros H. apply rbind_Ok_inv in H as (b & Eb & H).
    apply rbind_Ok_inv in H as (bs & Ebs & [= <-]).
    specialize (IH bs Ebs).
    destruct (encode_char_cases c) as [[E _] | (b' & E & _ & Hlen & _)];
      [congruence|].
    assert (b' = b) by congruence; subst b'.
    rewrite length_app. lia.
Qed.

(** For a string of fewer than [2^32] characters the header announces at
    most the number of payload bytes that follow it and at least a quarter
    of that number: the device is never told to expect more than it gets,
    and it is told to expect less as soon as a character is not ASCII. *)
Theorem chopMessage_header_announces_at_most_payload
    (s : pystr) (enc hdr : bytes) :
  (Z.of_nat (length s) < 2 ^ 32)%Z ->
  encode s = Ok enc ->
  toU32 (Z.of_nat (length s)) = Ok hdr ->
  (le_value hdr <= Z.of_nat (length enc) <= 4 * le_value hdr)%Z /\
  (le_value hdr < Z.of_nat (length enc) <-> ~ Forall single_byte s)%Z.
Proof.
  intros Hlt E Hh. rewrite toU32_eq in Hh. injection Hh as <-.
  rewrite le_value_toU32_bytes.
  rewrite Z.mod_small by lia.
  destruct (encode_length _ E) as [Hlo Hiff].
  pose proof (encode_length_upper _ E) as Hhi.
  split; [lia|]. split.
  - intros H HF. apply Hiff in HF. lia.
  - intros HF. destruct (Nat.eq_dec (length enc) (length s)) as [Heq|Hne];
      [apply Hiff in Heq; contradiction | lia].
Qed.

Lemma chopMessage_header_announces_at_most_payload_witness :
  (le_value [2; 0; 0; 0]%Z <= Z.of_nat 3 <= 4 * le_value [2; 0; 0; 0]%Z)%Z /\
  (le_value [2; 0; 0; 0]%Z < Z.of_nat 3 <->
   ~ Forall single_byte [0x48; 0xE9]%Z)%Z.
Proof.
  apply (@chopMessage_header_announces_at_most_payload [0x48; 0xE9]%Z
           [0x48; 0xC3; 0xA9]%Z [2; 0; 0; 0]%Z).
  - vm_compute. reflexivity.
  - reflexivity.
  - reflexivity.
Defined.

(** Framing an ASCII string of fewer than [2^32] characters and reading it
    back the way the wire format is meant to be read (four bytes of
    little-endian length, then that many bytes) gives the string back. *)
Theorem chopMessage_ascii_round_trip (s : pystr) (blocks : list bytes) :
  Forall (fun c => (0 <= c < 0x80)%Z) s ->
  (Z.of_nat (length s) < 2 ^ 32)%Z ->
  chopMessage s = Ok blocks ->
  let stream := concat blocks in
  le_value (firstn 4 stream) = Z.of_nat (length s) /\
  firstn (Z.to_nat (le_value (firstn 4 stream))) (skipn 4 stream) = s /\
  skipn (4 + Z.to_nat (le_value (firstn 4 stream))) stream = [].
Proof.
  intros Hs Hlt Hb stream.
  assert (Hs' : Forall (fun c => (c < 0x80)%Z) s)
    by (eapply Forall_impl; [|exact Hs]; simpl; lia).
  destruct (chopMessage_ascii_frame Hs') as (hdr & blocks' & Hh & Hb' & Hc & _).
  assert (blocks' = blocks) by congruence; subst blocks'.
  rewrite toU32_eq in Hh.
  assert (Hhdr : hdr = header s) by (injection Hh as <-; reflexivity).
  assert (Hv : le_value (firstn 4 stream) = Z.of_nat (length s)).
  { unfold stream. rewrite Hc, Hhdr. cbn [header app firstn].
    rewrite le_value_toU32_bytes. apply Z.mod_small. lia. }
  rewrite Hv, Nat2Z.id. split; [reflexivity|].
  unfold stream. rewrite Hc, Hhdr. split.
  - cbn [header app skipn]. apply firstn_all.
  - apply skipn_all2. rewrite length_app. cbn [header length]. lia.
Qed.

Lemma chopMessage_ascii_round_trip_witness :
  le_value (firstn 4 (concat [[2; 0; 0; 0; 72; 105]%Z])) = Z.of_nat 2 /\
  firstn (Z.to_nat (le_value (firstn 4 (concat [[2; 0; 0; 0; 72; 105]%Z]))))
         (skipn 4 (concat [[2; 0; 0; 0; 72; 105]%Z])) = [72; 105]%Z /\
  skipn (4 + Z.to_nat (le_value (firstn 4 (concat [[2; 0; 0; 0; 72; 105]%Z]))))
        (concat [[2; 0; 0; 0; 72; 105]%Z]) = [].
Proof.
  apply (@chopMessage_ascii_round_trip [72; 105]%Z [[2; 0; 0; 0; 72; 105]%Z]).
  - repeat constructor; lia.
  - vm_compute. reflexivity.
  - reflexivity.
Defined.

(** * Further properties of the transfer loop *)

Lemma calls_prints (evs : list event) :
  Forall (fun ev => is_io ev = false) evs ->
  calls evs = [] /\ sent_blocks evs = [] /\ read_sizes evs = [].
Proof.
  induction 1 as [|[t|i b r|i z r] evs Hev _ IH]; try discriminate Hev.
  - repeat split.
  - exact IH.
Qed.

Section TransferShape.

Variable Dev : Type.
Variable outep_write : bytes -> Dev -> result unit * Dev.
Variable inep_read : Z -> Dev -> result bytes * Dev.
Variable blocks : list bytes.

Local Abbreviation body := (loop_body outep_write inep_read blocks).
Local Abbreviation run_from k n d := (for_in (seq k n) body d).

(** The shape of every run of the loop, whatever the endpoints do: the
    calls made are an initial part of write k, read k, write k+1, read
    k+1, ...; the blocks accepted are an initial part of the blocks, in
    order; every read asks for 64 bytes; and a run that ends normally has
    made all the calls and sent all the blocks. *)
Lemma run_shape (n k : nat) (d : Dev) :
  k + n = length blocks ->
  exists m j,
    calls (trace (run_from k n d)) = firstn m (schedule k n) /\
    sent_blocks (trace (run_from k n d)) = firstn j (skipn k blocks) /\
    read_sizes (trace (run_from k n d)) = repeat 64%Z (m / 2) /\
    (outcome (run_from k n d) = Ok tt ->
     m = 2 * n /\ sent_blocks (trace (run_from k n d)) = skipn k blocks).
Proof.
  revert k d. induction n as [|n IH]; intros k d HN.
  - exists 0, 0. repeat split. simpl. rewrite skipn_all2 by lia. reflexivity.
  - destruct (nth_error blocks k) as [block|] eqn:Hnth;
      [|apply nth_error_None in Hnth; lia].
    rewrite (skipn_nth_error_cons _ _ Hnth).
    pose proof (@loop_body_run Dev outep_write inep_read blocks k block d Hnth)
      as Hb.
    destruct (outep_write block d) as [[[]|e1] d1].
    + destruct (inep_read 64 d1) as [[response|e1] d2].
      * pose proof (@check_response_run Dev blocks k response d2) as [_ Hpr].
        apply calls_prints in Hpr as (Hc0 & Hs0 & Hr0).
        destruct (check_response blocks k response d2) as [[rc dc] evc].
        cbn [outcome trace fst snd] in Hb, Hc0, Hs0, Hr0.
        destruct rc as [[]|ec].
        -- destruct (@run_from_ok Dev outep_write inep_read blocks n _ _ _ _ Hb)
             as [Htr Hout].
           destruct (IH (S k) d2 ltac:(lia)) as (m & j & Hc & Hs & Hr & Hok).
           exists (2 + m), (1 + j). rewrite Htr, Hout.
           unfold calls, sent_blocks, read_sizes in *.
           rewrite !flat_map_app, Hc0, Hs0, Hr0, Hc, Hs, Hr.
           replace ((2 + m) / 2) with (S (m / 2))
             by (change (2 + m) with (1 * 2 + m);
                 rewrite Nat.div_add_l by lia; reflexivity).
           split; [reflexivity|]. split; [reflexivity|]. split; [reflexivity|].
           intros H. destruct (Hok H) as [-> Hall]. split; [lia|].
           change (block :: firstn j (skipn (S k) blocks) =
                   block :: skipn (S k) blocks).
           f_equal. rewrite <- Hs. exact Hall.
        -- destruct (@run_from_raise Dev outep_write inep_read blocks n _ _ _ _ _ Hb)
             as [Htr Hout].
           exists 2, 1. rewrite Htr, Hout.
           unfold calls, sent_blocks, read_sizes in *.
           rewrite !flat_map_app, Hc0, Hs0, Hr0.
           repeat split; discriminate.
      * destruct (@run_from_raise Dev outep_write inep_read blocks n _ _ _ _ _ Hb)
          as [Htr Hout].
        exists 2, 1. rewrite Htr, Hout.
        repeat split; discriminate.
    + destruct (@run_from_raise Dev outep_write inep_read blocks n _ _ _ _ _ Hb)
        as [Htr Hout].
      exists 1, 0. rewrite Htr, Hout.
      repeat split; discriminate.
Qed.

Lemma check_response_ok_inv (i : nat) (response : bytes) (d : Dev) :
  outcome (check_response blocks i response d) = Ok tt ->
  (i + 1 = length blocks /\ length response = 32 /\
   trace (check_response blocks i response d) =
     [EvPrint (lit "hash: " ++ map chr response ++ [10%Z])]) \/
  (i + 1 <> length blocks /\ response = [] /\
   trace (check_response blocks i response d) = []).
Proof.
  unfold check_response.
  destruct (Nat.eqb_spec (i + 1) (length blocks)) as [Hi|Hi].
  - destruct (Nat.eqb_spec (length response) 0); [discriminate|].
    destruct (Nat.eqb_spec (length response) 32); [|discriminate].
    intros _. left. repeat split; assumption.
  - destruct response; [|discriminate].
    intros _. right. repeat split; assumption.
Qed.

(** A run that ends normally has read the empty response after every
    block but the last and 32 bytes after the last. *)
Lemma success_reads (n k : nat) (d : Dev) :
  k + n = length blocks -> 0 < n ->
  outcome (run_from k n d) = Ok tt ->
  exists digest,
    length digest = 32 /\
    In (EvRead (length blocks - 1) 64 (Ok digest)) (trace (run_from k n d)) /\
    (forall i, k <= i -> i + 1 < length blocks ->
               In (EvRead i 64 (Ok [])) (trace (run_from k n d))).
Proof.
  revert k d. induction n as [|n IH]; intros k d HN Hn; [lia|].
  destruct (nth_error blocks k) as [block|] eqn:Hnth;
    [|apply nth_error_None in Hnth; lia].
  pose proof (@loop_body_run Dev outep_write inep_read blocks k block d Hnth)
    as Hb.
  destruct (outep_write block d) as [[[]|e1] d1].
  - destruct (inep_read 64 d1) as [[response|e1] d2].
    + pose proof (@check_response_ok_inv k response d2) as Hinv.
      destruct (check_response blocks k response d2) as [[rc dc] evc].
      cbn [outcome trace fst snd] in Hb, Hinv.
      destruct rc as [[]|ec].
      * destruct (@run_from_ok Dev outep_write inep_read blocks n _ _ _ _ Hb)
          as [Htr Hout].
        rewrite Htr, Hout.
        destruct (Hinv eq_refl) as [(Hk & H32 & _)|(Hk & -> & _)].
        -- intros _. exists response. split; [exact H32|]. split.
           ++ replace (length blocks - 1) with k by lia.
              apply in_or_app; left. apply in_or_app; left. simpl; tauto.
           ++ intros i Hi HiN. lia.
        -- intros Ho.
           destruct (IH (S k) d2 ltac:(lia) ltac:(lia) Ho)
             as (digest & H32 & Hlast & Hacks).
           exists digest. split; [exact H32|]. split.
           ++ apply in_or_app; right. exact Hlast.
           ++ intros i Hi HiN. destruct (Nat.eq_dec i k) as [->|Hne].
              ** apply in_or_app; left. apply in_or_app; left. simpl; tauto.
              ** apply in_or_app; right. apply Hacks; lia.
      * destruct (@run_from_raise Dev outep_write inep_read blocks n _ _ _ _ _ Hb)
          as [_ Hout].
        rewrite Hout. discriminate.
    + destruct (@run_from_raise Dev outep_write inep_read blocks n _ _ _ _ _ Hb)
        as [_ Hout].
      rewrite Hout. discriminate.
  - destruct (@run_from_raise Dev outep_write inep_read blocks n _ _ _ _ _ Hb)
      as [_ Hout].
    rewrite Hout. discriminate.
Qed.

(** A run that raises has printed no hash. *)
Lemma failure_prints_no_hash (n k : nat) (d : Dev) (e : exn) (text : pystr) :
  k + n = length blocks ->
  outcome (run_from k n d) = Raise e ->
  ~ In (EvPrint (lit "hash: " ++ text)) (trace (run_from k n d)).
Proof.
  revert k d. induction n as [|n IH]; intros k d HN; [discriminate|].
  destruct (nth_error blocks k) as [block|] eqn:Hnth;
    [|apply nth_error_None in Hnth; lia].
  pose proof (@loop_body_run Dev outep_write inep_read blocks k block d Hnth)
    as Hb.
  destruct (outep_write block d) as [[[]|e1] d1].
  - destruct (inep_read 64 d1) as [[response|e1] d2].
    + pose proof (@check_response_ok_inv k response d2) as Hinv.
      pose proof (@check_response_raise_inv Dev blocks k response d2) as Hrinv.
      pose proof (@check_response_run Dev blocks k response d2) as [_ Hpr].
      destruct (check_response blocks k response d2) as [[rc dc] evc] eqn:Hc.
      cbn [outcome trace fst snd] in Hb, Hinv, Hrinv, Hpr.
      destruct rc as [[]|ec].
      * destruct (@run_from_ok Dev outep_write inep_read blocks n _ _ _ _ Hb)
          as [Htr Hout].
        rewrite Htr, Hout. intros Ho Hin.
        destruct (Hinv eq_refl) as [(Hk & _)|(Hk & _ & ->)].
        -- assert (n = 0) by lia; subst n. discriminate Ho.
        -- apply in_app_or in Hin as [Hin|Hin]; [|exact (IH (S k) d2 ltac:(lia) Ho Hin)].
           rewrite app_nil_r in Hin. simpl in Hin.
           destruct Hin as [H|[H|[H|[H|[]]]]]; discriminate H.
      * destruct (@run_from_raise Dev outep_write inep_read blocks n _ _ _ _ _ Hb)
          as [Htr Hout].
        rewrite Htr. intros _ Hin.
        assert (evc = []) as ->.
        { unfold check_response in Hc.
          destruct (k + 1 =? length blocks), (length response =? 0),
            (negb (length response =? 32)); simpl in Hc;
            unfold raise, print, ret in Hc; congruence. }
        rewrite app_nil_r in Hin. simpl in Hin.
        destruct Hin as [H|[H|[H|[H|[]]]]]; discriminate H.
    + destruct (@run_from_raise Dev outep_write inep_read blocks n _ _ _ _ _ Hb)
        as [Htr Hout].
      rewrite Htr. intros _ Hin. simpl in Hin.
      destruct Hin as [H|[H|[H|[H|[]]]]]; discriminate H.
  - destruct (@run_from_raise Dev outep_write inep_read blocks n _ _ _ _ _ Hb)
      as [Htr Hout].
    rewrite Htr. intros _ Hin. simpl in Hin.
    destruct Hin as [H|[H|[]]]; discriminate H.
Qed.

Lemma body_read_raise_inv (i : nat) (d : Dev) (j : nat) (sz : Z) (e : exn) :
  In (EvRead j sz (Raise e)) (trace (body i d)) ->
  j = i /\ sz = 64%Z /\
  exists block d2,
    nth_error blocks i = Some block /\
    body i d =
    (Raise e, d2,
     [EvPrint (lit "sending: '" ++ bytes_repr block ++ lit "' ...");
      EvWrite i block (Ok tt); EvPrint (lit " sent." ++ [10%Z]);
      EvRead i 64 (Raise e)]).
Proof.
  destruct (nth_error blocks i) as [block|] eqn:Hnth.
  - rewrite (@loop_body_run Dev outep_write inep_read blocks i block d Hnth).
    destruct (outep_write block d) as [[[]|e'] d1].
    + destruct (inep_read 64 d1) as [[resp|e'] d2].
      * pose proof (@check_response_run Dev blocks i resp d2) as [_ Hpr].
        cbn [trace snd]. intros Hin.
        apply in_app_or in Hin as [Hin|Hin].
        -- simpl in Hin.
           destruct Hin as [Hin|[Hin|[Hin|[Hin|[]]]]]; discriminate Hin.
        -- rewrite Forall_forall in Hpr. apply Hpr in Hin. discriminate Hin.
      * simpl. intros [H|[H|[H|[H|[]]]]]; try discriminate H.
        injection H as <- <- <-. repeat split. eauto.
    + simpl. intros [H|[H|[]]]; discriminate H.
  - unfold loop_body, index, bind. rewrite Hnth. simpl. tauto.
Qed.

End TransferShape.

(** ** What every run of the transfer does *)

Section TransferRuns.

Variable Dev : Type.
Variable outep_write : bytes -> Dev -> result unit * Dev.
Variable inep_read : Z -> Dev -> result bytes * Dev.

(** Whatever the endpoints do, the calls of a transfer are an initial part
    of write 0, read 0, write 1, read 1, ...: no read without the write of
    its block just before it, no second write before the read of the
    first, no index skipped or repeated.  Every read asks for 64 bytes.  A
    transfer that ends normally has made all [2 * N] calls. *)
Theorem transfer_calls_follow_schedule (blocks : list bytes) (d : Dev) :
  exists m,
    calls (trace (transfer outep_write inep_read blocks d)) =
      firstn m (schedule 0 (length blocks)) /\
    read_sizes (trace (transfer outep_write inep_read blocks d)) =
      repeat 64%Z (m / 2) /\
    (outcome (transfer outep_write inep_read blocks d) = Ok tt ->
     m = 2 * length blocks).
Proof.
  destruct (@run_shape Dev outep_write inep_read blocks (length blocks) 0 d
              eq_refl) as (m & j & Hc & _ & Hr & Hok).
  exists m. split; [exact Hc|]. split; [exact Hr|].
  intros Ho. now apply Hok.
Qed.

(** Whatever the endpoints do, the blocks the OUT endpoint has accepted
    are an initial part of [blocks], unchanged and in order; when the
    transfer ends normally they are all of [blocks]. *)
Theorem transfer_sends_blocks_in_order (blocks : list bytes) (d : Dev) :
  exists j,
    sent_blocks (trace (transfer outep_write inep_read blocks d)) =
      firstn j blocks /\
    (outcome (transfer outep_write inep_read blocks d) = Ok tt ->
     sent_blocks (trace (transfer outep_write inep_read blocks d)) = blocks).
Proof.
  destruct (@run_shape Dev outep_write inep_read blocks (length blocks) 0 d
              eq_refl) as (m & j & _ & Hs & _ & Hok).
  exists j. split; [exact Hs|]. intros Ho. now apply Hok.
Qed.

(** A transfer ends normally only in two ways: there was no block, and
    then it did nothing at all; or every block but the last was answered
    with the empty response and the last with 32 bytes, which it printed
    as the hash in its last line. *)
Theorem transfer_success_means_digest (blocks : list bytes) (d : Dev) :
  outcome (transfer outep_write inep_read blocks d) = Ok tt ->
  (blocks = [] /\ trace (transfer outep_write inep_read blocks d) = []) \/
  (exists digest,
     length digest = 32 /\
     io_events (trace (transfer outep_write inep_read blocks d)) =
       acked_cycles 0 blocks digest /\
     exists pre,
       trace (transfer outep_write inep_read blocks d) =
       pre ++ [EvPrint (lit "hash: " ++ map chr digest ++ [10%Z])]).
Proof.
  intros Ho. destruct blocks as [|b0 rest] eqn:Hbl; [left; split; reflexivity|].
  right. rewrite <- Hbl in *.
  assert (HN : 0 < length blocks) by (rewrite Hbl; simpl; lia).
  destruct (@success_reads Dev outep_write inep_read blocks (length blocks) 0 d
              eq_refl HN Ho) as (digest & H32 & Hlast & Hacks).
  exists digest. split; [exact H32|].
  destruct (@acked_run Dev outep_write inep_read blocks digest
              (length blocks) 0 d eq_refl HN H32 Hacks Hlast) as (_ & Hio & Hpre).
  split; [exact Hio | exact Hpre].
Qed.

(** A transfer that raises has printed no hash line. *)
Theorem transfer_failure_prints_no_hash
    (blocks : list bytes) (d : Dev) (e : exn) (text : pystr) :
  outcome (transfer outep_write inep_read blocks d) = Raise e ->
  ~ In (EvPrint (lit "hash: " ++ text))
       (trace (transfer outep_write inep_read blocks d)).
Proof.
  intros Ho.
  now apply (@failure_prints_no_hash Dev outep_write inep_read blocks
               (length blocks) 0 d e text eq_refl).
Qed.

(** A read the transport fails at index [i] ends the transfer with the
    very exception the read raised: block [i] had been written and
    accepted, the read asked for 64 bytes, no response is examined, and
    no call is made at a later index. *)
Theorem transfer_read_failure_propagates
    (blocks : list bytes) (d : Dev) (i : nat) (sz : Z) (e : exn) :
  In (EvRead i sz (Raise e)) (trace (transfer outep_write inep_read blocks d)) ->
  outcome (transfer outep_write inep_read blocks d) = Raise e /\
  sz = 64%Z /\
  (exists block,
     nth_error blocks i = Some block /\
     In (EvWrite i block (Ok tt))
        (trace (transfer outep_write inep_read blocks d))) /\
  (forall ev j,
     In ev (trace (transfer outep_write inep_read blocks d)) ->
     ev_index ev = Some j -> j <= i).
Proof.
  intros Hin.
  destruct (@event_locality Dev outep_write inep_read blocks
              (length blocks) 0 d _ i eq_refl Hin eq_refl)
    as (d_i & pre & post & Htr & Hrange & Hin' & Hpre & Hpost & Hraise & Hlast).
  apply body_read_raise_inv in Hin'.
  destruct Hin' as (_ & -> & block & d2 & Hnth & Hb).
  destruct (Hraise e) as [Ho ->]; [now rewrite Hb|].
  change (transfer outep_write inep_read blocks d)
    with (for_in (seq 0 (length blocks))
            (loop_body outep_write inep_read blocks) d).
  rewrite Htr, Hb. cbn [trace snd]. rewrite app_nil_r.
  split; [exact Ho|]. split; [reflexivity|]. split.
  - exists block. split; [exact Hnth|].
    apply in_or_app; right. simpl; tauto.
  - intros ev j Hev Hj. apply in_app_or in Hev as [Hev|Hev].
    + apply (Hpre _ _ Hev) in Hj. lia.
    + simpl in Hev.
      destruct Hev as [<-|[<-|[<-|[<-|[]]]]]; simpl in Hj; try discriminate;
        injection Hj as <-; lia.
Qed.

(** The framer and the loop together: for a string that encodes, the
    bytes the OUT endpoint has accepted are, in order, an initial part of
    [toU32(len(s)) + s.encode()]; when the transfer ends normally they are
    all of it, sent in [ceil((4 + L) / 64)] writes, and a 32-byte digest
    was printed. *)
Theorem chopMessage_transfer_sends_frame
    (s : pystr) (enc : bytes) (blocks : list bytes) (d : Dev) :
  encode s = Ok enc ->
  chopMessage s = Ok blocks ->
  exists hdr,
    toU32 (Z.of_nat (length s)) = Ok hdr /\
    (exists rest,
       concat (sent_blocks (trace (transfer outep_write inep_read blocks d)))
         ++ rest = hdr ++ enc) /\
    (outcome (transfer outep_write inep_read blocks d) = Ok tt ->
     concat (sent_blocks (trace (transfer outep_write inep_read blocks d))) =
       hdr ++ enc /\
     length (sent_blocks (trace (transfer outep_write inep_read blocks d))) =
       ceil_div (4 + length enc) 64 /\
     exists digest,
       length digest = 32 /\
       In (EvPrint (lit "hash: " ++ map chr digest ++ [10%Z]))
          (trace (transfer outep_write inep_read blocks d))).
Proof.
  intros E Hb.
  destruct (chopMessage_blocks _ E) as (blocks' & Hb' & Hc & Hlen & _).
  assert (blocks' = blocks) by congruence; subst blocks'.
  destruct (@run_shape Dev outep_write inep_read blocks (length blocks) 0 d
              eq_refl) as (m & j & _ & Hs & _ & Hok).
  change (for_in (seq 0 (length blocks))
            (loop_body outep_write inep_read blocks) d)
    with (transfer outep_write inep_read blocks d) in Hs, Hok.
  exists (header s). split; [apply toU32_eq|]. split.
  - exists (concat (skipn j blocks)).
    rewrite Hs. cbn [skipn]. rewrite <- concat_app, firstn_skipn. exact Hc.
  - intros Ho. destruct (Hok Ho) as [_ Hall]. cbn [skipn] in Hall.
    rewrite Hall. split; [exact Hc|]. split; [exact Hlen|].
    assert (HN : 0 < length blocks).
    { destruct (ceil_div_spec (4 + length enc) (length blocks)) as [[H1 H2] _];
        [now symmetry | lia]. }
    destruct (@success_reads Dev outep_write inep_read blocks (length blocks) 0 d
                eq_refl HN Ho) as (digest & H32 & Hlast & Hacks).
    destruct (@acked_run Dev outep_write inep_read blocks digest
                (length blocks) 0 d eq_refl HN H32 Hacks Hlast)
      as (_ & _ & pre & Hpre).
    exists digest. split; [exact H32|].
    change (for_in (seq 0 (length blocks))
              (loop_body outep_write inep_read blocks) d)
      with (transfer outep_write inep_read blocks d) in Hpre.
    rewrite Hpre. apply in_or_app; right. simpl; tauto.
Qed.

End TransferRuns.

Lemma transfer_success_means_digest_witness :
  (demo_blocks = [] /\
   trace (transfer scripted_write scripted_read demo_blocks
            [Ok []; Ok []; Ok demo_digest]) = []) \/
  (exists digest,
     length digest = 32 /\
     io_events (trace (transfer scripted_write scripted_read demo_blocks
                         [Ok []; Ok []; Ok demo_digest])) =
       acked_cycles 0 demo_blocks digest /\
     exists pre,
       trace (transfer scripted_write scripted_read demo_blocks
                [Ok []; Ok []; Ok demo_digest]) =
       pre ++ [EvPrint (lit "hash: " ++ map chr digest ++ [10%Z])]).
Proof.
  apply (@transfer_success_means_digest scripted scripted_write scripted_read
           demo_blocks [Ok []; Ok []; Ok demo_digest]).
  reflexivity.
Defined.

Lemma transfer_failure_prints_no_hash_witness :
  ~ In (EvPrint (lit "hash: " ++ map chr [110; 111]%Z ++ [10%Z]))
       (trace (transfer scripted_write scripted_read demo_blocks
                 [Ok []; Ok []; Ok [110; 111]%Z])).
Proof.
  apply (@transfer_failure_prints_no_hash scripted scripted_write scripted_read
           demo_blocks [Ok []; Ok []; Ok [110; 111]%Z]
           (DeviceReportedError [110; 111]%Z)).
  reflexivity.
Defined.

Lemma transfer_read_failure_propagates_witness :
  outcome (transfer scripted_write scripted_read demo_blocks
             [Ok []; Raise (USBError 110)]) = Raise (USBError 110) /\
  64%Z = 64%Z /\
  (exists block,
     nth_error demo_blocks 1 = Some block /\
     In (EvWrite 1 block (Ok tt))
        (trace (transfer scripted_write scripted_read demo_blocks
                  [Ok []; Raise (USBError 110)]))) /\
  (forall ev j,
     In ev (trace (transfer scripted_write scripted_read demo_blocks
                     [Ok []; Raise (USBError 110)])) ->
     ev_index ev = Some j -> j <= 1).
Proof.
  apply (@transfer_read_failure_propagates scripted scripted_write scripted_read
           demo_blocks [Ok []; Raise (USBError 110)] 1 64 (USBError 110)).
  in_trace.
Defined.

Lemma chopMessage_transfer_sends_frame_witness :
  exists hdr,
    toU32 70%Z = Ok hdr /\
    (exists rest,
       concat (sent_blocks
                 (trace (transfer scripted_write scripted_read
                           [ [70; 0; 0; 0]%Z ++ repeat 97%Z 60; repeat 97%Z 10 ]
                           [Ok []; Ok demo_digest])))
         ++ rest = hdr ++ repeat 97%Z 70) /\
    (outcome (transfer scripted_write scripted_read
                [ [70; 0; 0; 0]%Z ++ repeat 97%Z 60; repeat 97%Z 10 ]
                [Ok []; Ok demo_digest]) = Ok tt ->
     concat (sent_blocks
               (trace (transfer scripted_write scripted_read
                         [ [70; 0; 0; 0]%Z ++ repeat 97%Z 60; repeat 97%Z 10 ]
                         [Ok []; Ok demo_digest]))) =
       hdr ++ repeat 97%Z 70 /\
     length (sent_blocks
               (trace (transfer scripted_write scripted_read
                         [ [70; 0; 0; 0]%Z ++ repeat 97%Z 60; repeat 97%Z 10 ]
                         [Ok []; Ok demo_digest]))) =
       ceil_div (4 + 70) 64 /\
     exists digest,
       length digest = 32 /\
       In (EvPrint (lit "hash: " ++ map chr digest ++ [10%Z]))
          (trace (transfer scripted_write scripted_read
                    [ [70; 0; 0; 0]%Z ++ repeat 97%Z 60; repeat 97%Z 10 ]
                    [Ok []; Ok demo_digest]))).
Proof.
  exact (@chopMessage_transfer_sends_frame scripted scripted_write scripted_read
           (repeat 97%Z 70) (repeat 97%Z 70)
           [ [70; 0; 0; 0]%Z ++ repeat 97%Z 60; repeat 97%Z 10 ]
           [Ok []; Ok demo_digest] eq_refl eq_refl).
Defined.

(** ** The one exception of [chopMessage] *)

Lemma encode_raise_inv (s : pystr) (e : exn) :
  encode s = Raise e ->
  e = UnicodeEncodeError /\ Exists (fun c => is_surrogate c = true) s.
Proof.
  induction s as [|c s IH]; simpl; [discriminate|].
  destruct (encode_char_cases c) as [[E Hs] | (b & E & _)]; rewrite E; simpl.
  - intros [= <-]. split; [reflexivity | now left].
  - destruct (encode s) as [bs|e'] eqn:Es; simpl; [discriminate|].
    intros [= <-]. destruct (IH eq_refl) as [-> Hex].
    split; [reflexivity | now right].
Qed.

(** [chopMessage] raises on exactly the strings that hold a surrogate code
    point, and what it raises is always the [UnicodeEncodeError] of
    [str.encode()]: building the header never fails, whatever the length
    of the string. *)
Theorem chopMessage_raises_iff_surrogate (s : pystr) (e : exn) :
  chopMessage s = Raise e <->
  e = UnicodeEncodeError /\ Exists (fun c => is_surrogate c = true) s.
Proof.
  split.
  - intros Hr. destruct (encode s) as [enc|e'] eqn:E.
    + destruct (chopMessage_blocks _ E) as (blocks & Hb & _). congruence.
    + rewrite (chopMessage_raises _ E) in Hr. injection Hr as <-.
      now apply encode_raise_inv.
  - intros [-> Hex]. destruct (encode s) as [enc|e'] eqn:E.
    + assert (HF : Forall (fun c => is_surrogate c = false) s)
        by (apply encode_Ok_iff; eauto).
      apply Exists_exists in Hex as (c & Hin & Hc).
      rewrite Forall_forall in HF. apply HF in Hin. congruence.
    + destruct (encode_raise_inv _ E) as [-> _].
      now apply chopMessage_raises.
Qed.
